(** * Ace Attorney pairing generator: the selection logic of [assets/main.js]

    The script keeps a roster of character records in the global
    [characters], filters it by tag ([getCharsByTag]), draws random members
    ([getRandomChar]) and builds a pairing under the duplicate-avoidance rules
    of [getPairing]; [generatePairing] decodes the selector of the page,
    calls [getPairing] and writes the result into the page.  The development
    below embeds these four functions and proves the properties the
    specification states about them, then further properties of the code.
    [loadCharacters] (a [fetch] and its JSON) is not embedded: the roster it
    leaves in [characters] is a parameter.

    Modelling choices.
    - The values [Math.random()] yields are an oracle, read in call order;
      the position of the next unread value is part of the state.  The draw
      [Math.floor(Math.random() * length)] is embedded twice, and
      [getPairing] and [Double.getPairing] are one body, [getPairing_by],
      over the two.
      In [getRandomChar] the oracle is [rnd : nat -> Q] and the product is
      exact.  The script rounds the product to a double, which can select the
      next element (0.6666666666666666 of 3, see [draw_two_thirds]) and never
      one outside the array; as the value [i / n] selects index [i] of [n]
      here ([floor_scaled_onto]), every run of the script is a run here for
      some oracle with values in [0, 1) ([script_run_is_exact_run]).  The
      theorems that hold whichever element is drawn are stated with this
      draw.
      In [Double.getRandomChar] the oracle yields doubles and the product is
      the product of doubles, as in the script.  The theorems that depend on
      which elements are drawn (the termination of the loops) are stated
      with this draw.
    - [characterId] is an integer, compared by [===].
    - [console.warn] appends its message to the [console] part of the state.
    - An array read out of range or an unset variable is [undefined], written
      [None]; a property read on [undefined] raises a [TypeError].
    - The page is a map from element ids to maps from property names to
      strings; [getElementById] of an id that is not there is [null].
    - The [do ... while] loops take a bound on the number of times the body
      may run; [Running] is the outcome of a loop that has not exited within
      that bound. *)

From Stdlib Require Import QArith Qround Ascii.
From Stdlib Require PrimFloat FloatOps SpecFloat Uint63.
From stdpp Require Import base decidable option list strings gmap.

Local Open Scope string_scope.
Local Open Scope Z_scope.

(** ** Data *)

(** A record of [characters.json].  [characterId] groups the depictions of one
    character, [image] names one depiction. *)
Record Character : Type := mkCharacter {
  characterId : Z;
  image : string;
  name : string;
  gender : string;
  tags : list string
}.

#[global] Instance Character_eq_dec : EqDecision Character.
Proof. solve_decision. Defined.

(** The object [getPairing] returns; which constructor depends on the mode.
    A member is a JavaScript value: a character, or [undefined]. *)
Inductive Pairing : Type :=
| MaleFemale (male female : option Character)
| MaleMale (male1 male2 : option Character)
| FemaleFemale (female1 female2 : option Character).

(** The two members of a pairing, in the order of its fields. *)
Definition members (p : Pairing) : option Character * option Character :=
  match p with
  | MaleFemale a b | MaleMale a b | FemaleFemale a b => (a, b)
  end.

Module MODES.
Definition NORMAL : string := "hetero".
Definition MM : string := "homo-male".
Definition FF : string := "homo-female".
End MODES.

(** ** Effects: random draws, the console, exceptions and loops *)

Record world : Type := mkWorld {
  drawn : nat;              (* how many values of [Math.random] were read *)
  console : list string     (* the warnings written so far, oldest first *)
}.

Inductive outcome (A : Type) : Type :=
| Returns (a : A) (w : world)
| Throws                    (* TypeError *)
| Running.                  (* still inside a loop when the bound is reached *)
Arguments Returns {A} a w.
Arguments Throws {A}.
Arguments Running {A}.

Definition run (A : Type) : Type := world -> outcome A.

Definition ret {A} (a : A) : run A := fun w => Returns a w.

Definition bind {A B} (c : run A) (k : A -> run B) : run B :=
  fun w => match c w with
           | Returns a w' => k a w'
           | Throws => Throws
           | Running => Running
           end.

Notation "'let*' x ':=' c 'in' k" := (bind c (fun x => k))
  (at level 10, x name, c at level 100, k at level 200).

Definition throw {A} : run A := fun _ => Throws.

(** The state after one more value of [Math.random] was read. *)
Definition tick (w : world) : world :=
  {| drawn := S (drawn w); console := console w |}.

(** The state after [console.warn(msg)]. *)
Definition warned (msg : string) (w : world) : world :=
  {| drawn := drawn w; console := console w ++ [msg] |}.

Definition console_warn (msg : string) : run unit :=
  fun w => Returns tt (warned msg w).

(** [v.field]: a property read, a [TypeError] when [v] is [undefined]. *)
Definition prop {B} (field : Character -> B) (v : option Character) : run B :=
  match v with
  | Some c => ret (field c)
  | None => throw
  end.

(** [do body while (cond)]: the body runs first, then the test. *)
Fixpoint do_while {A} (fuel : nat) (body : run A) (cond : A -> run bool) : run A :=
  match fuel with
  | O => fun _ => Running
  | S fuel' =>
      let* a := body in
      let* again := cond a in
      if again : bool then do_while fuel' body cond else ret a
  end.

(** [arr[i]] for a number [i] that is an integer. *)
Definition item (arr : list Character) (i : Z) : option Character :=
  if decide (0 <= i) then arr !! Z.to_nat i else None.

(** [c.gender === "male"] and [c.gender === "female"] *)
Definition is_male (c : Character) : Prop := gender c = "male".
Definition is_female (c : Character) : Prop := gender c = "female".

Section Main.

(** The values of [Math.random()], in call order. *)
Variable rnd : nat -> Q.

(** The global [characters], as left by [loadCharacters]. *)
Variable characters : list Character.

Definition Math_random : run Q :=
  fun w => Returns (rnd (drawn w)) (tick w).

(** [getCharsByTag(tag = null)]; [None] is [null] (or the argument left out). *)
Definition getCharsByTag (tag : option string) : list Character :=
  match tag with
  | None => characters
  | Some t => filter (fun char => t ∈ tags char) characters
  end.

(** [Math.floor(x * n)] *)
Definition floor_scaled (x : Q) (n : nat) : Z :=
  Qfloor (x * inject_Z (Z.of_nat n)).

Definition getRandomChar (charArray : list Character) : run (option Character) :=
  let* r := Math_random in
  ret (item charArray (floor_scaled r (length charArray))).

(** [subgroup === "all" || subgroup === "game"] *)
Definition all_or_game (subgroup : string) : bool :=
  bool_decide (subgroup = "all") || bool_decide (subgroup = "game").

(** The test of the loop of the opposite-gender branch. *)
Definition same_characterId (male female : option Character) : run bool :=
  let* f := prop characterId female in
  let* m := prop characterId male in
  ret (bool_decide (f = m)).

(** The test of the loops of the two same-gender branches:
    [second.image === first.image ||
     ((subgroup === "all" || subgroup === "game") &&
      second.characterId === first.characterId)]. *)
Definition same_depiction (subgroup : string) (first second : option Character)
  : run bool :=
  let* i2 := prop image second in
  let* i1 := prop image first in
  if bool_decide (i2 = i1) then ret true
  else if all_or_game subgroup then
    let* c2 := prop characterId second in
    let* c1 := prop characterId first in
    ret (bool_decide (c2 = c1))
  else ret false.

(** [subgroup === "all" ? null : subgroup] *)
Definition subgroup_tag (subgroup : string) : option string :=
  if decide (subgroup = "all") then None else Some subgroup.

(** The body of [getPairing].  [getRandomChar] is left open here, because the
    product in it is taken in two ways below: exactly (the definition just
    above), and rounded to a double as the script does ([Double]). *)
Section Body.

Variable getRandomChar : list Character -> run (option Character).

Definition getPairing_by (fuel : nat) (subgroup mode : string)
  : run (option Pairing) :=
  let tag := subgroup_tag subgroup in
  let subgroupChars := getCharsByTag tag in
  if decide (mode = MODES.NORMAL) then
    let males := filter is_male subgroupChars in
    let females := filter is_female subgroupChars in
    if bool_decide (length males = 0%nat) || bool_decide (length females = 0%nat)
    then
      let* _ := console_warn ("No characters found for subgroup: " +:+ subgroup) in
      ret None
    else
      let* male := getRandomChar males in
      let* female :=
        if all_or_game subgroup
        then do_while fuel (getRandomChar females) (same_characterId male)
        else getRandomChar females in
      ret (Some (MaleFemale male female))
  else if decide (mode = MODES.MM) then
    let males := filter is_male subgroupChars in
    if decide (length males < 2)%nat then
      let* _ := console_warn
        ("Not enough males for homo pairing in subgroup: " +:+ subgroup) in
      ret None
    else
      let* male1 := getRandomChar males in
      let* male2 :=
        do_while fuel (getRandomChar males) (same_depiction subgroup male1) in
      ret (Some (MaleMale male1 male2))
  else if decide (mode = MODES.FF) then
    let females := filter is_female subgroupChars in
    if decide (length females < 2)%nat then
      let* _ := console_warn
        ("Not enough females for same-sex pairing in subgroup: " +:+ subgroup) in
      ret None
    else
      let* female1 := getRandomChar females in
      let* female2 :=
        do_while fuel (getRandomChar females) (same_depiction subgroup female1) in
      ret (Some (FemaleFemale female1 female2))
  else
    let* _ := console_warn ("Invalid pairing mode: " +:+ mode) in
    ret None.

End Body.

Definition getPairing (fuel : nat) (subgroup mode : string) : run (option Pairing) :=
  getPairing_by getRandomChar fuel subgroup mode.

(** [getPairing(subgroup)]: the mode left out is [MODES.NORMAL]. *)
Definition getPairing_default (fuel : nat) (subgroup : string) : run (option Pairing) :=
  getPairing fuel subgroup MODES.NORMAL.

End Main.

(** ** The draw as the script computes it *)

(** [getRandomChar] with the numbers of the script: [Math.random()] yields a
    double, the length of the array is a double, their product is rounded to
    a double, and [Math.floor] takes the integer below it. *)
Module Double.

(** [charArray.length] as a number (an array has fewer than 2^32 elements,
    and such a length is a double). *)
Definition length_number (n : nat) : PrimFloat.float :=
  PrimFloat.of_uint63 (Uint63.of_Z (Z.of_nat n)).

(** [Math.floor(x)] as an integer; [None] for [NaN] and the infinities, which
    are the index of no element. *)
Definition Math_floor (x : PrimFloat.float) : option Z :=
  match FloatOps.Prim2SF x with
  | SpecFloat.S754_zero _ => Some 0
  | SpecFloat.S754_finite negative m e =>
      let significand := if negative then Z.neg m else Z.pos m in
      Some (if decide (0 <= e) then significand * 2 ^ e
            else significand `div` 2 ^ (- e))
  | SpecFloat.S754_infinity _ => None
  | SpecFloat.S754_nan => None
  end.

(** [Math.floor(r * n)] for a value [r] of [Math.random] and a length [n]. *)
Definition index (r : PrimFloat.float) (n : nat) : option Z :=
  Math_floor (PrimFloat.mul r (length_number n)).

(** [arr[i]] for the number [i] that [Math.floor] returned. *)
Definition at_index (arr : list Character) (i : option Z) : option Character :=
  match i with
  | Some i => item arr i
  | None => None
  end.

Section Oracle.

(** The values of [Math.random()], in call order. *)
Variable rnd : nat -> PrimFloat.float.

Definition Math_random : run PrimFloat.float :=
  fun w => Returns (rnd (drawn w)) (tick w).

Definition getRandomChar (charArray : list Character) : run (option Character) :=
  let* r := Math_random in
  ret (at_index charArray (index r (length charArray))).

Definition getPairing (characters : list Character)
    (fuel : nat) (subgroup mode : string) : run (option Pairing) :=
  getPairing_by characters getRandomChar fuel subgroup mode.

End Oracle.

End Double.

(** ** Vocabulary of the statements *)

(** Every value of the oracle selects an element of an array of [n]
    elements.  The values of [Math.random], doubles of [0, 1), do so for
    every length an array can have; the statements below that need it take it
    as their hypothesis. *)
Definition draws_inside (rnd : nat -> PrimFloat.float) (n : nat) : Prop :=
  forall k, exists i, (i < n)%nat /\ Double.index (rnd k) n = Some (Z.of_nat i).

(** The oracle draws every element of an array of [n] elements again and
    again: after any position comes a value whose draw is that element. *)
Definition fair (rnd : nat -> PrimFloat.float) (n : nat) : Prop :=
  forall start i, (i < n)%nat ->
    exists k, (start <= k)%nat /\ Double.index (rnd k) n = Some (Z.of_nat i).

(** Every value of the oracle is one [Math.random] can yield: in [0, 1). *)
Definition unit_interval (rnd : nat -> Q) : Prop :=
  forall i, (0 <= rnd i)%Q /\ (rnd i < 1)%Q.

(** The fraction [i / n] for the index [i] that the double [r] draws from [n]
    elements (0 when it draws none): the exact product of this fraction with
    [n] selects the same index. *)
Definition as_fraction (r : PrimFloat.float) (n : nat) : Q :=
  match Double.index r n with
  | Some i =>
      if decide (0 <= i < Z.of_nat n)
      then (inject_Z i / inject_Z (Z.of_nat n))%Q
      else 0%Q
  | None => 0%Q
  end.

(** The fractions for an oracle of doubles whose value at position [first]
    is drawn from [n_first] elements and whose other values are drawn from
    [n_rest] elements. *)
Definition fractions (rnd : nat -> PrimFloat.float) (first n_first n_rest : nat)
  : nat -> Q :=
  fun k => as_fraction (rnd k) (if decide (k = first) then n_first else n_rest).

(** The candidate set of a subgroup: [subgroupChars] in [getPairing]. *)
Definition candidates (characters : list Character) (subgroup : string)
  : list Character :=
  getCharsByTag characters (subgroup_tag subgroup).

(** The two gender partitions of the candidate set. *)
Definition males_of (characters : list Character) (subgroup : string)
  : list Character :=
  filter is_male (candidates characters subgroup).
Definition females_of (characters : list Character) (subgroup : string)
  : list Character :=
  filter is_female (candidates characters subgroup).

(** How a pairing comes to be returned: the mode is one of the three, the
    partitions are large enough, a first member is drawn, and the second one
    comes out of the loop (or, outside "all" and "game" in the opposite-gender
    mode, out of a single draw). *)
Inductive drawn_as (rnd : nat -> Q) (characters : list Character)
    (subgroup : string) (fuel : nat) (w w' : world) : string -> Pairing -> Prop :=
| drawn_hetero male female w1 :
    males_of characters subgroup <> [] ->
    females_of characters subgroup <> [] ->
    getRandomChar rnd (males_of characters subgroup) w = Returns male w1 ->
    (if all_or_game subgroup
     then do_while fuel (getRandomChar rnd (females_of characters subgroup))
            (same_characterId male)
     else getRandomChar rnd (females_of characters subgroup)) w1
      = Returns female w' ->
    drawn_as rnd characters subgroup fuel w w' "hetero" (MaleFemale male female)
| drawn_mm male1 male2 w1 :
    (2 <= length (males_of characters subgroup))%nat ->
    getRandomChar rnd (males_of characters subgroup) w = Returns male1 w1 ->
    do_while fuel (getRandomChar rnd (males_of characters subgroup))
      (same_depiction subgroup male1) w1 = Returns male2 w' ->
    drawn_as rnd characters subgroup fuel w w' "homo-male" (MaleMale male1 male2)
| drawn_ff female1 female2 w1 :
    (2 <= length (females_of characters subgroup))%nat ->
    getRandomChar rnd (females_of characters subgroup) w = Returns female1 w1 ->
    do_while fuel (getRandomChar rnd (females_of characters subgroup))
      (same_depiction subgroup female1) w1 = Returns female2 w' ->
    drawn_as rnd characters subgroup fuel w w' "homo-female"
      (FemaleFemale female1 female2).

(** A computation that takes a bound on its loops ends: some bound is enough. *)
Definition terminates {A} (c : nat -> run A) (w : world) : Prop :=
  exists fuel, c fuel w <> Running.

(** ** Example rosters *)

Module Example.

Definition Phoenix (id : Z) : Character :=
  mkCharacter id "phoenix1" "Phoenix" "male" ["pw1"; "game"].
Definition Maya (id : Z) : Character :=
  mkCharacter id "maya1" "Maya" "female" ["pw1"; "game"].

(** Two depictions of one man and two of one woman, all with the same
    [characterId], in the subgroup "pw1". *)
Definition man1 : Character := mkCharacter 7 "man-a" "Man" "male" ["pw1"].
Definition man2 : Character := mkCharacter 7 "man-b" "Man" "male" ["pw1"].
Definition woman1 : Character := mkCharacter 7 "woman-a" "Woman" "female" ["pw1"].
Definition woman2 : Character := mkCharacter 7 "woman-b" "Woman" "female" ["pw1"].
Definition twins : list Character := [man1; man2; woman1; woman2].

(** An oracle whose every value is 0: each draw takes the first element. *)
Definition zeros : nat -> Q := fun _ => 0%Q.

(** First 0, then 1/2 for ever: the first draw takes the first element,
    the later ones the second of two. *)
Definition zero_then_half : nat -> Q :=
  fun i => match i with O => 0%Q | S _ => (1 # 2)%Q end.

(** 0 at the even positions and 1/2 at the odd ones: of two elements the
    draws take the first and the second in turn. *)
Definition alternate : nat -> Q :=
  fun i => if Nat.even i then 0%Q else (1 # 2)%Q.

(** Phoenix, a female depiction filed under his [characterId], and Maya. *)
Definition phoenix_f : Character :=
  mkCharacter 1 "phoenix-f" "Phoenix" "female" ["game"].
Definition cast : list Character := [Phoenix 1; phoenix_f; Maya 2].

Definition start : world := {| drawn := 0; console := [] |}.

End Example.

(** ** The page: [generatePairing] *)

(** The document as [generatePairing] sees it: the elements by [id], each a
    map from the properties the script reads or assigns ("value",
    "innerHTML", "className", "style.display", "textContent", "src", "alt")
    to strings.  An [id] without an element makes [getElementById] return
    [null], and a property read or assigned on [null] raises a [TypeError]. *)
Definition element : Type := gmap string string.
Definition document : Type := gmap string element.

(** [document.getElementById(id).property], [None] when there is no such
    element or the property was never set. *)
Definition get_prop (id property : string) (doc : document) : option string :=
  match doc !! id with
  | Some el => el !! property
  | None => None
  end.

(** [document.getElementById(id).property = v] *)
Definition set_prop (id property v : string) (doc : document) : run document :=
  match doc !! id with
  | Some el => ret (<[id := <[property := v]> el]> doc)
  | None => throw
  end.

(** [pattern] is a prefix of [s]. *)
Fixpoint startsWith (pattern s : string) : bool :=
  match pattern, s with
  | EmptyString, _ => true
  | String _ _, EmptyString => false
  | String a pattern', String b s' =>
      if Ascii.eqb a b then startsWith pattern' s' else false
  end.

(** [s.includes(pattern)]: [pattern] occurs somewhere in [s]. *)
Fixpoint includes (pattern s : string) : bool :=
  match s with
  | EmptyString => startsWith pattern EmptyString
  | String _ s' => startsWith pattern s || includes pattern s'
  end.

(** [s.split(sep)] for a separator of one character: the first piece and the
    pieces after it (the array is never empty). *)
Fixpoint split (sep : Ascii.ascii) (s : string) : string * list string :=
  match s with
  | EmptyString => (EmptyString, [])
  | String c s' =>
      let '(piece, pieces) := split sep s' in
      if Ascii.eqb c sep then (EmptyString, piece :: pieces)
      else (String c piece, pieces)
  end.

(** The fields of a pairing object; a field it does not have is [undefined]. *)
Definition get_male (p : Pairing) : option Character :=
  match p with MaleFemale m _ => m | _ => None end.
Definition get_female (p : Pairing) : option Character :=
  match p with MaleFemale _ f => f | _ => None end.
Definition get_male1 (p : Pairing) : option Character :=
  match p with MaleMale a _ => a | _ => None end.
Definition get_male2 (p : Pairing) : option Character :=
  match p with MaleMale _ b => b | _ => None end.
Definition get_female1 (p : Pairing) : option Character :=
  match p with FemaleFemale a _ => a | _ => None end.
Definition get_female2 (p : Pairing) : option Character :=
  match p with FemaleFemale _ b => b | _ => None end.

(** The text of the error box, as it stands in the script. *)
Definition NO_PAIRING : string :=
  "âŒ No valid pairing available for this selection.".

(** [const [subgroup, mode] = selector.split('-')]: the first piece. *)
Definition selector_subgroup (selector : string) : string :=
  (split "-"%char selector).1.

(** The second piece, [undefined] when the selector has no dash. *)
Definition selector_mode (selector : string) : option string :=
  head (split "-"%char selector).2.

(** [actualMode]: the mode piece, with "normal", "MM" and "FF" replaced by
    the constants of [MODES]. *)
Definition actualMode (mode : option string) : option string :=
  if decide (mode = Some "normal") then Some MODES.NORMAL
  else if decide (mode = Some "MM") then Some MODES.MM
  else if decide (mode = Some "FF") then Some MODES.FF
  else mode.

(** [finalMode]: decided by the occurrence of "MM" and of "FF" anywhere in
    the selector. *)
Definition finalMode (selector : string) : string :=
  if includes "MM" selector then MODES.MM
  else if includes "FF" selector then MODES.FF
  else MODES.NORMAL.

(** [`./characters/${image}.png`] *)
Definition image_path (img : string) : string :=
  "./characters/" +:+ img +:+ ".png".

(** [char1] and [char2]: the two fields of the pairing that go with the
    mode; both stay [undefined] for a mode that is none of the three. *)
Definition displayed (finalMode : string) (pairing : Pairing)
  : option Character * option Character :=
  if decide (finalMode = MODES.NORMAL)
  then (get_male pairing, get_female pairing)
  else if decide (finalMode = MODES.MM)
  then (get_male1 pairing, get_male2 pairing)
  else if decide (finalMode = MODES.FF)
  then (get_female1 pairing, get_female2 pairing)
  else (None, None).

Section Page.

Variable rnd : nat -> Q.
Variable characters : list Character.

Definition generatePairing (fuel : nat) (doc : document) : run document :=
  let* selector :=
    match get_prop "pairingSelector" "value" doc with
    | Some v => ret v
    | None => throw
    end in
  let subgroup := selector_subgroup selector in
  let mode := selector_mode selector in
  let actualMode := actualMode mode in      (* computed, then not used *)
  let finalMode := finalMode selector in
  let* doc := set_prop "error" "innerHTML" "" doc in
  let* doc := set_prop "pairing" "style.display" "none" doc in
  let* pairing := getPairing rnd characters fuel subgroup finalMode in
  match pairing with
  | None =>
      let* doc := set_prop "error" "className" "error" doc in
      set_prop "error" "innerHTML" NO_PAIRING doc
  | Some pairing =>
      let* doc := set_prop "error" "style.display" "none" doc in
      let '(char1, char2) := displayed finalMode pairing in
      let* name1 := prop name char1 in
      let* doc := set_prop "char1Name" "textContent" name1 doc in
      let* image1 := prop image char1 in
      let* doc := set_prop "char1Image" "src" (image_path image1) doc in
      let* alt1 := prop name char1 in
      let* doc := set_prop "char1Image" "alt" alt1 doc in
      let* name2 := prop name char2 in
      let* doc := set_prop "char2Name" "textContent" name2 doc in
      let* image2 := prop image char2 in
      let* doc := set_prop "char2Image" "src" (image_path image2) doc in
      let* alt2 := prop name char2 in
      let* doc := set_prop "char2Image" "alt" alt2 doc in
      set_prop "pairing" "style.display" "grid" doc
  end.

End Page.

(** The elements [generatePairing] looks up. *)
Definition page_ids : list string :=
  ["pairingSelector"; "error"; "pairing";
   "char1Name"; "char1Image"; "char2Name"; "char2Image"].

(** A document that has them all, and whose selector has a value. *)
Definition page_ready (doc : document) : Prop :=
  Forall (fun id => is_Some (doc !! id)) page_ids /\
  is_Some (get_prop "pairingSelector" "value" doc).

(** ** More vocabulary *)

(** The document after an assignment to a property of an element it has. *)
Definition assign (id property v : string) (doc : document) : document :=
  match doc !! id with
  | Some el => <[id := <[property := v]> el]> doc
  | None => doc
  end.

(** The assignments of [generatePairing] on its two paths, in their order. *)
Definition cleared (doc : document) : document :=
  assign "pairing" "style.display" "none" (assign "error" "innerHTML" "" doc).

Definition error_shown (doc : document) : document :=
  assign "error" "innerHTML" NO_PAIRING
    (assign "error" "className" "error" (cleared doc)).

Definition pairing_shown (char1 char2 : Character) (doc : document) : document :=
  assign "pairing" "style.display" "grid"
    (assign "char2Image" "alt" (name char2)
      (assign "char2Image" "src" (image_path (image char2))
        (assign "char2Name" "textContent" (name char2)
          (assign "char1Image" "alt" (name char1)
            (assign "char1Image" "src" (image_path (image char1))
              (assign "char1Name" "textContent" (name char1)
                (assign "error" "style.display" "none" (cleared doc)))))))).

(** The second member is turned down by the loop of a same-gender branch:
    the same [image] as the first or, under "all" and "game", the same
    [characterId]. *)
Definition turned_down (subgroup : string) (first second : Character) : bool :=
  bool_decide (image second = image first) ||
  (all_or_game subgroup && bool_decide (characterId second = characterId first)).

Module Demo.

(** A page with every element, nothing shown yet. *)
Definition blank (selector : string) : document :=
  {[ "pairingSelector" := {[ "value" := selector ]};
     "error" := ∅; "pairing" := ∅;
     "char1Name" := ∅; "char1Image" := ∅;
     "char2Name" := ∅; "char2Image" := ∅ ]}.

Import PrimFloat.

(** The doubles 0 and 1/2 in turn: of two elements the draws take the first
    and the second in turn. *)
Definition in_turn : nat -> PrimFloat.float :=
  fun k => if Nat.even k then 0%float else 0.5%float.

(** The doubles that the script reads for 0.6666666666666666 and 0.7. *)
Definition two_thirds : PrimFloat.float := 0x1.5555555555555p-1%float.
Definition seven_tenths : PrimFloat.float := 0x1.6666666666666p-1%float.

(** The doubles 0, 0.6666666666666666 and 0.7, again and again. *)
Definition thirds : nat -> PrimFloat.float :=
  fun k => match (k mod 3)%nat with
           | O => 0%float
           | S O => two_thirds
           | _ => seven_tenths
           end.

(** Two depictions of one man around another man. *)
Definition trio : list Character :=
  [ mkCharacter 1 "a" "A" "male" ["pw1"];
    mkCharacter 2 "b" "B" "male" ["pw1"];
    mkCharacter 1 "c" "A" "male" ["pw1"] ].

(** The same page once its error box has been hidden. *)
Definition hidden_error (selector : string) : document :=
  assign "error" "style.display" "none" (blank selector).

End Demo.

(** ** The effects, step by step *)

Lemma bind_Returns {A B} (c : run A) (k : A -> run B) w b w' :
  bind c k w = Returns b w' ->
  exists a w1, c w = Returns a w1 /\ k a w1 = Returns b w'.
Proof.
  unfold bind. destruct (c w) as [a w1| |]; [|discriminate..].
  intros Hk. exists a, w1. split; [reflexivity|exact Hk].
Qed.

Lemma bind_eq {A B} (c : run A) (k : A -> run B) w a w1 :
  c w = Returns a w1 -> bind c k w = k a w1.
Proof. unfold bind. intros ->. reflexivity. Qed.

Lemma prop_Returns {B} (field : Character -> B) v b w w' :
  prop field v w = Returns b w' ->
  exists c, v = Some c /\ b = field c /\ w' = w.
Proof.
  destruct v as [c|]; simpl; [|discriminate].
  unfold ret. intros [= <- <-]. exists c. auto.
Qed.

(** A loop that returns has run its body a last time, and the test after that
    run was false. *)
Lemma do_while_Returns {A} (body : run A) (cond : A -> run bool) fuel :
  forall w a w',
    do_while fuel body cond w = Returns a w' ->
    exists w1 w2, body w1 = Returns a w2 /\ cond a w2 = Returns false w'.
Proof.
  induction fuel as [|fuel IH]; intros w a w'; simpl; [discriminate|].
  intros H.
  apply bind_Returns in H as (a1 & w1 & Hbody & H).
  apply bind_Returns in H as (again & w2 & Hcond & H).
  destruct again.
  - apply IH in H. exact H.
  - unfold ret in H. injection H as <- <-. exists w, w1. auto.
Qed.

Lemma same_characterId_Returns male female b w w' :
  same_characterId male female w = Returns b w' ->
  exists m f, male = Some m /\ female = Some f /\ w' = w /\
              b = bool_decide (characterId f = characterId m).
Proof.
  unfold same_characterId. intros H.
  apply bind_Returns in H as (idf & w1 & Hf & H).
  apply bind_Returns in H as (idm & w2 & Hm & H).
  apply prop_Returns in Hf as (f & -> & -> & ->).
  apply prop_Returns in Hm as (m & -> & -> & ->).
  unfold ret in H. injection H as <- <-. exists m, f. auto.
Qed.

Lemma same_depiction_false subgroup first second w w' :
  same_depiction subgroup first second w = Returns false w' ->
  exists a b, first = Some a /\ second = Some b /\ w' = w /\
              image b <> image a /\
              (all_or_game subgroup = true -> characterId b <> characterId a).
Proof.
  unfold same_depiction. intros H.
  apply bind_Returns in H as (i2 & w1 & H2 & H).
  apply bind_Returns in H as (i1 & w2 & H1 & H).
  apply prop_Returns in H2 as (b & -> & -> & ->).
  apply prop_Returns in H1 as (a & -> & -> & ->).
  exists a, b. simpl in H. unfold ret in H.
  case_bool_decide as Himg; [discriminate|].
  destruct (all_or_game subgroup).
  - cbn in H. case_bool_decide as Hid; [discriminate|]. injection H as <-. auto.
  - injection H as <-. repeat split; auto.
Qed.

(** ** Reading the array at a random index *)

Lemma floor_scaled_range (x : Q) (n : nat) :
  (0 <= x)%Q -> (x < 1)%Q -> (0 < n)%nat ->
  0 <= floor_scaled x n < Z.of_nat n.
Proof.
  intros H0 H1 Hn. unfold floor_scaled.
  set (N := inject_Z (Z.of_nat n)).
  assert (HN : (0 < N)%Q).
  { unfold N. change 0%Q with (inject_Z 0). rewrite <- Zlt_Qlt. lia. }
  split.
  - change 0 with (Qfloor (inject_Z 0)) at 1. apply Qfloor_resp_le.
    apply Qmult_le_0_compat; [exact H0|]. apply Qlt_le_weak, HN.
  - rewrite Zlt_Qlt. fold N.
    apply Qle_lt_trans with (x * N)%Q; [apply Qfloor_le|].
    rewrite <- (Qmult_1_l N) at 2.
    apply Qmult_lt_compat_r; assumption.
Qed.

(** Every index of an array of [n] elements is the one some value of
    [0, 1) selects. *)
Lemma floor_scaled_onto (i n : nat) :
  (i < n)%nat ->
  let x := (inject_Z (Z.of_nat i) / inject_Z (Z.of_nat n))%Q in
  (0 <= x)%Q /\ (x < 1)%Q /\ floor_scaled x n = Z.of_nat i.
Proof.
  intros Hlt x.
  assert (HN : (0 < inject_Z (Z.of_nat n))%Q).
  { change 0%Q with (inject_Z 0). rewrite <- Zlt_Qlt. lia. }
  split; [|split].
  - apply Qle_shift_div_l; [exact HN|]. rewrite Qmult_0_l.
    change 0%Q with (inject_Z 0). rewrite <- Zle_Qle. lia.
  - apply Qlt_shift_div_r; [exact HN|]. rewrite Qmult_1_l.
    rewrite <- Zlt_Qlt. lia.
  - unfold floor_scaled.
    transitivity (Qfloor (inject_Z (Z.of_nat i))); [|apply Qfloor_Z].
    apply Qfloor_comp. unfold x. field.
    intros E. rewrite E in HN. discriminate.
Qed.

Lemma item_Some arr i c : item arr i = Some c -> c ∈ arr.
Proof.
  unfold item. case_decide as Hi; [|discriminate].
  intros H. eapply list_elem_of_lookup_2, H.
Qed.

Lemma item_in_range arr i :
  0 <= i < Z.of_nat (length arr) -> exists c, item arr i = Some c /\ c ∈ arr.
Proof.
  intros [H0 H1]. unfold item. rewrite decide_True by assumption.
  destruct (lookup_lt_is_Some_2 arr (Z.to_nat i)) as [c Hc]; [lia|].
  exists c. split; [exact Hc|]. eapply list_elem_of_lookup_2, Hc.
Qed.

Section Draws.

Variable rnd : nat -> Q.

(** [getRandomChar] always returns, and reads one value of the oracle. *)
Lemma getRandomChar_eq charArray w :
  getRandomChar rnd charArray w =
  Returns (item charArray (floor_scaled (rnd (drawn w)) (length charArray)))
          (tick w).
Proof. reflexivity. Qed.

(** A defined result of [getRandomChar] is an element of the array. *)
Lemma getRandomChar_Some charArray w c w' :
  getRandomChar rnd charArray w = Returns (Some c) w' -> c ∈ charArray.
Proof.
  rewrite getRandomChar_eq. intros H. injection H as H _.
  eapply item_Some, H.
Qed.

Hypothesis rnd_unit : unit_interval rnd.

(** On a non-empty array the result is defined. *)
Lemma getRandomChar_nonempty charArray w :
  charArray <> [] ->
  exists c, getRandomChar rnd charArray w = Returns (Some c) (tick w) /\
            c ∈ charArray.
Proof.
  intros Hne. rewrite getRandomChar_eq.
  destruct (rnd_unit (drawn w)) as [H0 H1].
  destruct (item_in_range charArray
              (floor_scaled (rnd (drawn w)) (length charArray))) as (c & Hc & Hin).
  - apply floor_scaled_range; [assumption..|].
    destruct charArray; [congruence|simpl; lia].
  - exists c. rewrite Hc. auto.
Qed.

End Draws.

(** Unfolds [getPairing] and names the candidate set and its partitions. *)
Ltac open_getPairing cs s :=
  unfold getPairing, getPairing_by;
  fold (candidates cs s); fold (males_of cs s) (females_of cs s).

(** ** Filtering by tag *)

Lemma sublist_filter_mono {A} (P : A -> Prop) `{!forall x, Decision (P x)}
    (l1 l2 : list A) :
  l1 `sublist_of` l2 -> filter P l1 `sublist_of` filter P l2.
Proof.
  induction 1 as [|x l1 l2 _ IH|x l1 l2 _ IH].
  - constructor.
  - rewrite !filter_cons. destruct (decide (P x)); [constructor|]; exact IH.
  - rewrite filter_cons. destruct (decide (P x)); [constructor|]; exact IH.
Qed.

Lemma filter_all {A} (P : A -> Prop) `{!forall x, Decision (P x)} (l : list A) :
  Forall P l -> filter P l = l.
Proof.
  induction 1 as [|x l Hx _ IH]; [reflexivity|].
  rewrite filter_cons, decide_True by exact Hx. f_equal. exact IH.
Qed.

Lemma filter_none {A} (P : A -> Prop) `{!forall x, Decision (P x)} (l : list A) :
  (forall x, x ∈ l -> ~ P x) -> filter P l = [].
Proof.
  intros Hno. destruct (filter P l) as [|x l'] eqn:E; [reflexivity|].
  assert (Hx : x ∈ filter P l) by (rewrite E; left).
  apply list_elem_of_filter in Hx as [HP Hin]. destruct (Hno x Hin HP).
Qed.

(** C4. [getCharsByTag(null)] is the whole roster, in its order.  For a tag,
    the result holds the characters of the roster whose tags include it and no
    others; it keeps the order of the roster and drops no occurrence (every
    run of tagged characters taken in roster order is inside it); when no
    character carries the tag it is the empty array.  The function is total:
    there is no error case. *)
Theorem getCharsByTag_spec (characters : list Character) :
  getCharsByTag characters None = characters /\
  forall tag : string,
    (forall c, c ∈ getCharsByTag characters (Some tag) <->
               c ∈ characters /\ tag ∈ tags c) /\
    getCharsByTag characters (Some tag) `sublist_of` characters /\
    (forall l, l `sublist_of` characters ->
               Forall (fun c => tag ∈ tags c) l ->
               l `sublist_of` getCharsByTag characters (Some tag)) /\
    ((forall c, c ∈ characters -> tag ∉ tags c) ->
     getCharsByTag characters (Some tag) = []).
Proof.
  split; [reflexivity|]. intros tag. simpl.
  split; [|split; [|split]].
  - intros c. rewrite list_elem_of_filter. tauto.
  - apply sublist_filter.
  - intros l Hsub Hall.
    rewrite <- (filter_all (fun c => tag ∈ tags c) l Hall).
    apply sublist_filter_mono, Hsub.
  - intros Hnone. apply filter_none. exact Hnone.
Qed.

(** ** The branches that return [null] *)

(** C5. When the candidate set of the subgroup holds no male, [getPairing]
    returns [null] in the opposite-gender mode and in the male-male mode,
    after a warning; in the male-male mode it does so whenever the candidate
    set holds fewer than two males. *)
Theorem getPairing_too_few_males
    (rnd : nat -> Q) (characters : list Character)
    (fuel : nat) (subgroup : string) (w : world) :
  ((forall c, c ∈ candidates characters subgroup -> gender c <> "male") ->
   getPairing rnd characters fuel subgroup "hetero" w =
     Returns None (warned ("No characters found for subgroup: " +:+ subgroup) w) /\
   getPairing rnd characters fuel subgroup "homo-male" w =
     Returns None
       (warned ("Not enough males for homo pairing in subgroup: " +:+ subgroup) w)) /\
  ((length (males_of characters subgroup) < 2)%nat ->
   getPairing rnd characters fuel subgroup "homo-male" w =
     Returns None
       (warned ("Not enough males for homo pairing in subgroup: " +:+ subgroup) w)).
Proof.
  assert (Hmm : (length (males_of characters subgroup) < 2)%nat ->
    getPairing rnd characters fuel subgroup "homo-male" w =
      Returns None
        (warned ("Not enough males for homo pairing in subgroup: " +:+ subgroup) w)).
  { intros Hlen. open_getPairing characters subgroup.
    rewrite decide_False by discriminate.
    rewrite decide_True by reflexivity.
    rewrite decide_True by exact Hlen. reflexivity. }
  split; [|exact Hmm].
  intros Hnone.
  assert (Hnil : males_of characters subgroup = []).
  { apply filter_none. exact Hnone. }
  split.
  - open_getPairing characters subgroup.
    rewrite decide_True by reflexivity. rewrite Hnil. reflexivity.
  - apply Hmm. rewrite Hnil. simpl. lia.
Qed.

Lemma getPairing_too_few_males_witness :
  getPairing Example.zeros [Example.Maya 2] 0 "all" "hetero" Example.start =
    Returns None (warned "No characters found for subgroup: all" Example.start) /\
  getPairing Example.zeros [Example.Phoenix 1; Example.Maya 2] 0 "game" "homo-male"
    Example.start =
    Returns None
      (warned "Not enough males for homo pairing in subgroup: game" Example.start).
Proof.
  split.
  - apply (getPairing_too_few_males Example.zeros [Example.Maya 2] 0 "all"
             Example.start).
    intros c Hc. apply list_elem_of_singleton in Hc. subst c. discriminate.
  - apply (getPairing_too_few_males Example.zeros
             [Example.Phoenix 1; Example.Maya 2] 0 "game" Example.start).
    vm_compute. lia.
Defined.

(** C6. A mode that is none of "hetero", "homo-male" and "homo-female" makes
    [getPairing] warn and return [null]; it does not throw and does not enter
    a loop. *)
Theorem getPairing_invalid_mode
    (rnd : nat -> Q) (characters : list Character)
    (fuel : nat) (subgroup mode : string) (w : world) :
  mode <> "hetero" -> mode <> "homo-male" -> mode <> "homo-female" ->
  getPairing rnd characters fuel subgroup mode w =
    Returns None (warned ("Invalid pairing mode: " +:+ mode) w).
Proof.
  intros H1 H2 H3. unfold getPairing, getPairing_by.
  rewrite !decide_False by assumption. reflexivity.
Qed.

Lemma getPairing_invalid_mode_witness :
  getPairing Example.zeros [Example.Phoenix 1; Example.Maya 2] 0 "pw1" "normal"
    Example.start =
    Returns None (warned "Invalid pairing mode: normal" Example.start).
Proof.
  apply (getPairing_invalid_mode Example.zeros
           [Example.Phoenix 1; Example.Maya 2] 0 "pw1" "normal" Example.start);
    discriminate.
Defined.

(** ** The branches that draw *)

Section Branches.

Variable rnd : nat -> Q.
Variable characters : list Character.
Variable subgroup : string.

Abbreviation males := (males_of characters subgroup).
Abbreviation females := (females_of characters subgroup).

(** The opposite-gender branch once both partitions are known to be
    non-empty. *)
Lemma getPairing_hetero_eq fuel w :
  males <> [] -> females <> [] ->
  getPairing rnd characters fuel subgroup "hetero" w =
  (let* male := getRandomChar rnd males in
   let* female :=
     if all_or_game subgroup
     then do_while fuel (getRandomChar rnd females) (same_characterId male)
     else getRandomChar rnd females in
   ret (Some (MaleFemale male female))) w.
Proof.
  intros Hm Hf. open_getPairing characters subgroup.
  rewrite decide_True by reflexivity.
  destruct males; [congruence|]. destruct females; [congruence|]. reflexivity.
Qed.

(** The same-gender branches once the partition holds two members. *)
Lemma getPairing_mm_eq fuel w :
  (2 <= length males)%nat ->
  getPairing rnd characters fuel subgroup "homo-male" w =
  (let* male1 := getRandomChar rnd males in
   let* male2 :=
     do_while fuel (getRandomChar rnd males) (same_depiction subgroup male1) in
   ret (Some (MaleMale male1 male2))) w.
Proof.
  intros Hlen. open_getPairing characters subgroup.
  rewrite decide_False by discriminate.
  rewrite decide_True by reflexivity.
  rewrite decide_False by lia. reflexivity.
Qed.

Lemma getPairing_ff_eq fuel w :
  (2 <= length females)%nat ->
  getPairing rnd characters fuel subgroup "homo-female" w =
  (let* female1 := getRandomChar rnd females in
   let* female2 :=
     do_while fuel (getRandomChar rnd females) (same_depiction subgroup female1) in
   ret (Some (FemaleFemale female1 female2))) w.
Proof.
  intros Hlen. open_getPairing characters subgroup.
  rewrite !decide_False by discriminate.
  rewrite decide_True by reflexivity.
  rewrite decide_False by lia. reflexivity.
Qed.

Lemma getPairing_Returns_Some fuel mode w p w' :
  getPairing rnd characters fuel subgroup mode w = Returns (Some p) w' ->
  drawn_as rnd characters subgroup fuel w w' mode p.
Proof.
  intros H.
  destruct (decide (mode = "hetero")) as [->|Hn].
  { destruct (decide (males = [])) as [Em|Em].
    { revert H. open_getPairing characters subgroup. rewrite Em. discriminate. }
    destruct (decide (females = [])) as [Ef|Ef].
    { revert H. open_getPairing characters subgroup. rewrite Ef.
      rewrite decide_True by reflexivity.
      rewrite orb_true_r. discriminate. }
    rewrite getPairing_hetero_eq in H by assumption.
    apply bind_Returns in H as (male & w1 & Hmale & H).
    apply bind_Returns in H as (female & w2 & Hfemale & H).
    unfold ret in H. injection H as <- <-.
    eapply drawn_hetero; eassumption. }
  destruct (decide (mode = "homo-male")) as [->|Hm].
  { destruct (decide (length males < 2)%nat) as [Hlt|Hge].
    { revert H. open_getPairing characters subgroup. rewrite decide_False by discriminate.
      rewrite decide_True by reflexivity.
      rewrite decide_True by exact Hlt. discriminate. }
    rewrite getPairing_mm_eq in H by lia.
    apply bind_Returns in H as (male1 & w1 & H1 & H).
    apply bind_Returns in H as (male2 & w2 & H2 & H).
    unfold ret in H. injection H as <- <-.
    eapply drawn_mm; [lia|eassumption..]. }
  destruct (decide (mode = "homo-female")) as [->|Hf].
  { destruct (decide (length females < 2)%nat) as [Hlt|Hge].
    { revert H. open_getPairing characters subgroup. rewrite !decide_False by discriminate.
      rewrite decide_True by reflexivity.
      rewrite decide_True by exact Hlt. discriminate. }
    rewrite getPairing_ff_eq in H by lia.
    apply bind_Returns in H as (female1 & w1 & H1 & H).
    apply bind_Returns in H as (female2 & w2 & H2 & H).
    unfold ret in H. injection H as <- <-.
    eapply drawn_ff; [lia|eassumption..]. }
  revert H. unfold getPairing, getPairing_by. rewrite !decide_False by assumption. discriminate.
Qed.

End Branches.

(** ** Distinctness of the two members *)

(** C1. With the subgroup "all" or "game", whatever the roster, the oracle and
    the mode, a pairing that [getPairing] returns holds two characters whose
    [characterId] differ. *)
Theorem getPairing_distinct_characterId
    (rnd : nat -> Q) (characters : list Character)
    (fuel : nat) (subgroup mode : string) (w w' : world) (p : Pairing) :
  subgroup = "all" \/ subgroup = "game" ->
  getPairing rnd characters fuel subgroup mode w = Returns (Some p) w' ->
  exists a b, members p = (Some a, Some b) /\ characterId a <> characterId b.
Proof.
  intros Hsub H.
  assert (Hag : all_or_game subgroup = true).
  { unfold all_or_game. destruct Hsub as [-> | ->]; reflexivity. }
  apply getPairing_Returns_Some in H.
  destruct H as [male female w1 _ _ _ Hloop
                |male1 male2 w1 _ _ Hloop
                |female1 female2 w1 _ _ Hloop].
  - rewrite Hag in Hloop.
    apply do_while_Returns in Hloop as (w2 & w3 & _ & Hcond).
    apply same_characterId_Returns in Hcond as (m & f & -> & -> & _ & Hb).
    exists m, f. split; [reflexivity|].
    symmetry in Hb. apply bool_decide_eq_false in Hb. congruence.
  - apply do_while_Returns in Hloop as (w2 & w3 & _ & Hcond).
    apply same_depiction_false in Hcond as (a & b & -> & -> & _ & _ & Hid).
    exists a, b. split; [reflexivity|]. specialize (Hid Hag). congruence.
  - apply do_while_Returns in Hloop as (w2 & w3 & _ & Hcond).
    apply same_depiction_false in Hcond as (a & b & -> & -> & _ & _ & Hid).
    exists a, b. split; [reflexivity|]. specialize (Hid Hag). congruence.
Qed.

Lemma getPairing_distinct_characterId_witness :
  exists a b,
    members (MaleFemale (Some (Example.Phoenix 1)) (Some (Example.Maya 2)))
      = (Some a, Some b) /\
    characterId a <> characterId b.
Proof.
  apply (getPairing_distinct_characterId Example.zeros
           [Example.Phoenix 1; Example.Maya 2] 1 "game" "hetero"
           Example.start (tick (tick Example.start))).
  - right. reflexivity.
  - vm_compute. reflexivity.
Defined.

(** C2. In the male-male and the female-female mode, whatever the roster, the
    subgroup and the oracle, a pairing that [getPairing] returns holds two
    characters whose [image] differ. *)
Theorem getPairing_distinct_image
    (rnd : nat -> Q) (characters : list Character)
    (fuel : nat) (subgroup mode : string) (w w' : world) (p : Pairing) :
  mode = "homo-male" \/ mode = "homo-female" ->
  getPairing rnd characters fuel subgroup mode w = Returns (Some p) w' ->
  exists a b, members p = (Some a, Some b) /\ image a <> image b.
Proof.
  intros Hmode H.
  apply getPairing_Returns_Some in H.
  destruct H as [male female w1 _ _ _ _
                |male1 male2 w1 _ _ Hloop
                |female1 female2 w1 _ _ Hloop].
  - destruct Hmode; discriminate.
  - apply do_while_Returns in Hloop as (w2 & w3 & _ & Hcond).
    apply same_depiction_false in Hcond as (a & b & -> & -> & _ & Himg & _).
    exists a, b. split; [reflexivity|]. congruence.
  - apply do_while_Returns in Hloop as (w2 & w3 & _ & Hcond).
    apply same_depiction_false in Hcond as (a & b & -> & -> & _ & Himg & _).
    exists a, b. split; [reflexivity|]. congruence.
Qed.

Lemma getPairing_distinct_image_witness :
  exists a b,
    members (MaleMale (Some Example.man1) (Some Example.man2))
      = (Some a, Some b) /\
    image a <> image b.
Proof.
  apply (getPairing_distinct_image Example.zero_then_half Example.twins
           1 "pw1" "homo-male" Example.start (tick (tick Example.start))).
  - left. reflexivity.
  - vm_compute. reflexivity.
Defined.

(** ** The redraw loop of the opposite-gender branch *)

Section Redraw.

Variable rnd : nat -> Q.
Variable females : list Character.
Variable m : Character.

Hypothesis rnd_unit : unit_interval rnd.
Hypothesis females_nonempty : females <> [].

Abbreviation redraw fuel :=
  (do_while fuel (getRandomChar rnd females) (same_characterId (Some m))).

(** One round: a female is drawn; the loop goes on when she has the
    [characterId] of the male and returns her otherwise. *)
Lemma redraw_step fuel w :
  exists f, f ∈ females /\
    item females (floor_scaled (rnd (drawn w)) (length females)) = Some f /\
    redraw (S fuel) w =
      if bool_decide (characterId f = characterId m)
      then redraw fuel (tick w)
      else Returns (Some f) (tick w).
Proof.
  destruct (getRandomChar_nonempty rnd rnd_unit females w females_nonempty)
    as (f & Hdraw & Hin).
  exists f. split; [exact Hin|]. split.
  - rewrite getRandomChar_eq in Hdraw. congruence.
  - simpl. rewrite (bind_eq _ _ _ _ _ Hdraw).
    unfold same_characterId, bind, prop, ret.
    destruct (bool_decide (characterId f = characterId m)); reflexivity.
Qed.

(** The loop never throws: it is still running, or it has returned a female
    of the array whose [characterId] is not the male's. *)
Lemma redraw_outcome fuel :
  forall w,
    redraw fuel w = Running \/
    exists f w', redraw fuel w = Returns (Some f) w' /\
                 f ∈ females /\ characterId f <> characterId m.
Proof.
  induction fuel as [|fuel IH]; intros w; [left; reflexivity|].
  destruct (redraw_step fuel w) as (f & Hin & _ & ->).
  case_bool_decide as Hid.
  - apply IH.
  - right. exists f, (tick w). auto.
Qed.

(** When every female has the [characterId] of the male, no bound is enough. *)
Lemma redraw_all_same fuel :
  (forall f, f ∈ females -> characterId f = characterId m) ->
  forall w, redraw fuel w = Running.
Proof.
  intros Hsame. induction fuel as [|fuel IH]; intros w; [reflexivity|].
  destruct (redraw_step fuel w) as (f & Hin & _ & ->).
  rewrite bool_decide_eq_true_2 by (apply Hsame, Hin). apply IH.
Qed.

End Redraw.

(** ** The opposite-gender branch on a well-formed oracle *)

Lemma filter_nonempty {A} (P : A -> Prop) `{!forall x, Decision (P x)}
    (l : list A) (x : A) :
  x ∈ l -> P x -> filter P l <> [].
Proof.
  intros Hin HP Hnil.
  assert (Hx : x ∈ filter P l) by (apply list_elem_of_filter; auto).
  rewrite Hnil in Hx. inversion Hx.
Qed.

Lemma candidates_elem characters subgroup c :
  c ∈ candidates characters subgroup <->
  c ∈ characters /\ (subgroup <> "all" -> subgroup ∈ tags c).
Proof.
  unfold candidates, subgroup_tag. destruct (decide (subgroup = "all")) as [E|E]; simpl.
  - tauto.
  - rewrite list_elem_of_filter. tauto.
Qed.

Lemma males_of_elem characters subgroup c :
  c ∈ males_of characters subgroup ->
  gender c = "male" /\ c ∈ candidates characters subgroup.
Proof. unfold males_of. rewrite list_elem_of_filter. auto. Qed.

Lemma females_of_elem characters subgroup c :
  c ∈ females_of characters subgroup ->
  gender c = "female" /\ c ∈ candidates characters subgroup.
Proof. unfold females_of. rewrite list_elem_of_filter. auto. Qed.

(** With both partitions non-empty the opposite-gender branch does not throw
    and does not return [null]: either the redraw loop (entered for "all" and
    "game" only) is still running, or a male and a female of the partitions
    are returned. *)
Lemma getPairing_hetero_outcome rnd characters fuel subgroup w :
  unit_interval rnd ->
  males_of characters subgroup <> [] ->
  females_of characters subgroup <> [] ->
  (getPairing rnd characters fuel subgroup "hetero" w = Running /\
   all_or_game subgroup = true) \/
  exists male female w',
    getPairing rnd characters fuel subgroup "hetero" w =
      Returns (Some (MaleFemale (Some male) (Some female))) w' /\
    male ∈ males_of characters subgroup /\
    female ∈ females_of characters subgroup.
Proof.
  intros Hunit Hm Hf. rewrite getPairing_hetero_eq by assumption.
  destruct (getRandomChar_nonempty rnd Hunit _ w Hm) as (male & Hdraw & Hin).
  rewrite (bind_eq _ _ _ _ _ Hdraw).
  destruct (all_or_game subgroup).
  - destruct (redraw_outcome rnd _ male Hunit Hf fuel (tick w))
      as [Hrun|(female & w' & Hret & Hinf & _)].
    + left. unfold bind. rewrite Hrun. auto.
    + right. exists male, female, w'. unfold bind. rewrite Hret. auto.
  - destruct (getRandomChar_nonempty rnd Hunit _ (tick w) Hf)
      as (female & Hdrawf & Hinf).
    right. exists male, female, (tick (tick w)).
    unfold bind. rewrite Hdrawf. auto.
Qed.

(** C3. When the candidate set of the subgroup holds a male and a female,
    whatever [getPairing] returns in the opposite-gender mode is a pairing
    whose [male] has gender "male" and whose [female] has gender "female".
    It does not throw, and outside "all" and "game" it does return. *)
Theorem getPairing_hetero_genders
    (rnd : nat -> Q) (characters : list Character)
    (fuel : nat) (subgroup : string) (w : world) :
  unit_interval rnd ->
  (exists c, c ∈ candidates characters subgroup /\ gender c = "male") ->
  (exists c, c ∈ candidates characters subgroup /\ gender c = "female") ->
  (forall r w',
     getPairing rnd characters fuel subgroup "hetero" w = Returns r w' ->
     exists male female,
       r = Some (MaleFemale (Some male) (Some female)) /\
       gender male = "male" /\ gender female = "female") /\
  getPairing rnd characters fuel subgroup "hetero" w <> Throws /\
  (subgroup <> "all" -> subgroup <> "game" ->
   exists r w', getPairing rnd characters fuel subgroup "hetero" w = Returns r w').
Proof.
  intros Hunit (cm & Hcm & Gm) (cf & Hcf & Gf).
  assert (Hm : males_of characters subgroup <> []).
  { eapply filter_nonempty; [exact Hcm|exact Gm]. }
  assert (Hf : females_of characters subgroup <> []).
  { eapply filter_nonempty; [exact Hcf|exact Gf]. }
  destruct (getPairing_hetero_outcome rnd characters fuel subgroup w Hunit Hm Hf)
    as [[Hrun Hag]|(male & female & w1 & Hret & Hinm & Hinf)].
  - rewrite Hrun. split; [discriminate|]. split; [discriminate|].
    intros Hall Hgame. unfold all_or_game in Hag.
    rewrite !bool_decide_eq_false_2 in Hag by assumption. discriminate.
  - rewrite Hret. split; [|split; [discriminate|eauto]].
    intros r w' [= <- <-]. exists male, female.
    apply males_of_elem in Hinm. apply females_of_elem in Hinf. tauto.
Qed.

Lemma getPairing_hetero_genders_witness :
  exists male female,
    Some (MaleFemale (Some (Example.Phoenix 1)) (Some (Example.Maya 2)))
      = Some (MaleFemale (Some male) (Some female)) /\
    gender male = "male" /\ gender female = "female".
Proof.
  refine (proj1 (getPairing_hetero_genders Example.zeros
                   [Example.Phoenix 1; Example.Maya 2] 0 "pw1" Example.start
                   _ _ _) _ (tick (tick Example.start)) _).
  - intros i. split; [discriminate|reflexivity].
  - exists (Example.Phoenix 1). split; [vm_compute; left|reflexivity].
  - exists (Example.Maya 2). split; [vm_compute; right; left|reflexivity].
  - vm_compute. reflexivity.
Defined.

(** C8. On the roster of Phoenix (male) and Maya (female), both tagged "pw1"
    and "game", [getPairing("pw1", "hetero")] returns the pairing of Phoenix
    and Maya for every oracle, after two draws and without a warning: each
    partition has one member.  (The [characterId] of the two play no part.) *)
Theorem getPairing_phoenix_maya
    (rnd : nat -> Q) (idP idM : Z) (fuel : nat) (w : world) :
  unit_interval rnd ->
  getPairing rnd [Example.Phoenix idP; Example.Maya idM] fuel "pw1" "hetero" w =
    Returns (Some (MaleFemale (Some (Example.Phoenix idP))
                              (Some (Example.Maya idM))))
            (tick (tick w)).
Proof.
  intros Hunit.
  assert (Hone : forall i, floor_scaled (rnd i) 1 = 0).
  { intros i. destruct (Hunit i) as [H0 H1].
    pose proof (floor_scaled_range (rnd i) 1 H0 H1 ltac:(lia)). lia. }
  assert (Em : males_of [Example.Phoenix idP; Example.Maya idM] "pw1"
               = [Example.Phoenix idP]) by reflexivity.
  assert (Ef : females_of [Example.Phoenix idP; Example.Maya idM] "pw1"
               = [Example.Maya idM]) by reflexivity.
  rewrite getPairing_hetero_eq by (rewrite ?Em, ?Ef; discriminate).
  rewrite Em, Ef. unfold bind. rewrite !getRandomChar_eq. simpl.
  rewrite !Hone. reflexivity.
Qed.

Lemma getPairing_phoenix_maya_witness :
  getPairing Example.zeros [Example.Phoenix 1; Example.Maya 2] 0 "pw1" "hetero"
    Example.start =
    Returns (Some (MaleFemale (Some (Example.Phoenix 1)) (Some (Example.Maya 2))))
            (tick (tick Example.start)).
Proof.
  apply (getPairing_phoenix_maya Example.zeros 1 2 0 Example.start).
  intros i. split; [discriminate|reflexivity].
Defined.

(** ** Where the members come from *)

(** What a loop returns was returned by its body. *)
Lemma do_while_getRandomChar rnd arr cond fuel w c w' :
  do_while fuel (getRandomChar rnd arr) cond w = Returns (Some c) w' -> c ∈ arr.
Proof.
  intros H. apply do_while_Returns in H as (w1 & w2 & Hbody & _).
  eapply getRandomChar_Some, Hbody.
Qed.

(** C9. Every character of a pairing that [getPairing] returns belongs to the
    candidate set asked for: it is on the roster, and unless the subgroup is
    "all" its tags include the subgroup.  On an oracle with values in [0, 1)
    both members of the pairing are characters. *)
Theorem getPairing_members_in_subgroup
    (rnd : nat -> Q) (characters : list Character)
    (fuel : nat) (subgroup mode : string) (w w' : world) (p : Pairing) :
  getPairing rnd characters fuel subgroup mode w = Returns (Some p) w' ->
  (forall c, (members p).1 = Some c \/ (members p).2 = Some c ->
             c ∈ characters /\ (subgroup <> "all" -> subgroup ∈ tags c)) /\
  (unit_interval rnd -> exists a b, members p = (Some a, Some b)).
Proof.
  intros H. apply getPairing_Returns_Some in H.
  destruct H as [male female w1 Hm Hf Hfirst Hsecond
                |male1 male2 w1 Hlen Hfirst Hloop
                |female1 female2 w1 Hlen Hfirst Hloop]; simpl.
  - split.
    + intros c [-> | ->]; apply candidates_elem.
      * eapply males_of_elem, getRandomChar_Some, Hfirst.
      * destruct (all_or_game subgroup).
        -- eapply females_of_elem, do_while_getRandomChar, Hsecond.
        -- eapply females_of_elem, getRandomChar_Some, Hsecond.
    + intros Hunit.
      destruct (getRandomChar_nonempty rnd Hunit _ w Hm) as (a & Ha & _).
      rewrite Ha in Hfirst. injection Hfirst as <- <-.
      destruct (all_or_game subgroup).
      * apply do_while_Returns in Hsecond as (w2 & w3 & _ & Hcond).
        apply same_characterId_Returns in Hcond as (a' & b & _ & -> & _).
        eauto.
      * destruct (getRandomChar_nonempty rnd Hunit _ (tick w) Hf) as (b & Hb & _).
        rewrite Hb in Hsecond. injection Hsecond as <- <-. eauto.
  - pose proof Hloop as Hcond.
    apply do_while_Returns in Hcond as (w2 & w3 & _ & Hcond).
    apply same_depiction_false in Hcond as (a & b & -> & -> & _).
    split; [|eauto].
    intros c [[= <-] | [= <-]]; apply candidates_elem.
    + eapply males_of_elem, getRandomChar_Some, Hfirst.
    + eapply males_of_elem, do_while_getRandomChar, Hloop.
  - pose proof Hloop as Hcond.
    apply do_while_Returns in Hcond as (w2 & w3 & _ & Hcond).
    apply same_depiction_false in Hcond as (a & b & -> & -> & _).
    split; [|eauto].
    intros c [[= <-] | [= <-]]; apply candidates_elem.
    + eapply females_of_elem, getRandomChar_Some, Hfirst.
    + eapply females_of_elem, do_while_getRandomChar, Hloop.
Qed.

Lemma getPairing_members_in_subgroup_witness :
  (forall c,
     (members (MaleMale (Some Example.man1) (Some Example.man2))).1 = Some c \/
     (members (MaleMale (Some Example.man1) (Some Example.man2))).2 = Some c ->
     c ∈ Example.twins /\ ("pw1" <> "all" -> "pw1" ∈ tags c)) /\
  exists a b,
    members (MaleMale (Some Example.man1) (Some Example.man2)) = (Some a, Some b).
Proof.
  destruct (getPairing_members_in_subgroup Example.zero_then_half Example.twins
              1 "pw1" "homo-male" Example.start (tick (tick Example.start))
              (MaleMale (Some Example.man1) (Some Example.man2)))
    as [Hin Hdef].
  - vm_compute. reflexivity.
  - split; [exact Hin|]. apply Hdef.
    intros [|i]; split; (discriminate || reflexivity).
Defined.

(** ** Outside "all" and "game" *)

(** C10. For a subgroup other than "all" and "game" the [characterId] of the
    two members is not compared: on a roster with two depictions of a man and
    two of a woman under one [characterId], all tagged "pw1", and an oracle
    with values in [0, 1), [getPairing("pw1", mode)] returns in the male-male
    and in the female-female mode two characters with different [image] and
    equal [characterId], and in the opposite-gender mode a male and a female
    with equal [characterId]. *)
Theorem characterId_not_compared_outside_all_and_game :
  exists (rnd : nat -> Q) (characters : list Character) (subgroup : string),
    unit_interval rnd /\ subgroup <> "all" /\ subgroup <> "game" /\
    forall fuel,
      (exists a b w',
         getPairing rnd characters (S fuel) subgroup "homo-male" Example.start
           = Returns (Some (MaleMale (Some a) (Some b))) w' /\
         image a <> image b /\ characterId a = characterId b) /\
      (exists a b w',
         getPairing rnd characters (S fuel) subgroup "homo-female" Example.start
           = Returns (Some (FemaleFemale (Some a) (Some b))) w' /\
         image a <> image b /\ characterId a = characterId b) /\
      (exists a b w',
         getPairing rnd characters (S fuel) subgroup "hetero" Example.start
           = Returns (Some (MaleFemale (Some a) (Some b))) w' /\
         gender a = "male" /\ gender b = "female" /\
         characterId a = characterId b).
Proof.
  exists Example.zero_then_half, Example.twins, "pw1".
  split; [|split; [discriminate|split; [discriminate|]]].
  { intros [|i]; split; (discriminate || reflexivity). }
  intros fuel. split; [|split].
  - exists Example.man1, Example.man2, (tick (tick Example.start)).
    split; [reflexivity|]. split; [discriminate|reflexivity].
  - exists Example.woman1, Example.woman2, (tick (tick Example.start)).
    split; [reflexivity|]. split; [discriminate|reflexivity].
  - exists Example.man1, Example.woman2, (tick (tick Example.start)).
    split; [reflexivity|]. auto.
Qed.

(** ** Sample runs *)

(** The mode left out is the opposite-gender mode. *)
Example run_default :
  getPairing_default Example.zeros [Example.Phoenix 1; Example.Maya 2] 0 "pw1"
    Example.start =
  Returns (Some (MaleFemale (Some (Example.Phoenix 1)) (Some (Example.Maya 2))))
          (tick (tick Example.start)).
Proof. reflexivity. Qed.

(** Under "all" the two men of [Example.twins] share their [characterId]: the
    male-male loop has no second member to accept. *)
Example run_twins_all :
  getPairing Example.zero_then_half Example.twins 40 "all" "homo-male"
    Example.start = Running.
Proof. vm_compute. reflexivity. Qed.

(** A subgroup nobody is tagged with. *)
Example run_unknown_subgroup :
  getPairing Example.zeros Example.twins 1 "pw9" "homo-female" Example.start =
  Returns None
    (warned "Not enough females for same-sex pairing in subgroup: pw9"
       Example.start).
Proof. reflexivity. Qed.

(** A value outside [0, 1), which [Math.random] does not yield, selects no
    element; the test of the loop then reads a property of [undefined]. *)
Example run_out_of_range :
  getPairing (fun _ => 1%Q) Example.twins 1 "pw1" "homo-male" Example.start =
  Throws.
Proof. reflexivity. Qed.

(** * Further properties of the script *)

(** ** [getPairing]: the other [null] branches *)

(** X3. Without a female in the candidate set [getPairing] warns and returns
    [null] in the opposite-gender mode, also when there are males; with fewer
    than two females it does so in the female-female mode.  No value of
    [Math.random] is read. *)
Theorem getPairing_too_few_females
    (rnd : nat -> Q) (characters : list Character)
    (fuel : nat) (subgroup : string) (w : world) :
  ((forall c, c ∈ candidates characters subgroup -> gender c <> "female") ->
   getPairing rnd characters fuel subgroup "hetero" w =
     Returns None (warned ("No characters found for subgroup: " +:+ subgroup) w)) /\
  ((length (females_of characters subgroup) < 2)%nat ->
   getPairing rnd characters fuel subgroup "homo-female" w =
     Returns None
       (warned ("Not enough females for same-sex pairing in subgroup: "
                +:+ subgroup) w)).
Proof.
  split.
  - intros Hnone.
    assert (Hnil : females_of characters subgroup = []).
    { apply filter_none. exact Hnone. }
    open_getPairing characters subgroup.
    rewrite decide_True by reflexivity. rewrite Hnil.
    rewrite orb_true_r. reflexivity.
  - intros Hlen. open_getPairing characters subgroup.
    rewrite !decide_False by discriminate.
    rewrite decide_True by reflexivity.
    rewrite decide_True by exact Hlen. reflexivity.
Qed.

Lemma getPairing_too_few_females_witness :
  getPairing Example.zeros [Example.Phoenix 1] 0 "all" "hetero" Example.start =
    Returns None (warned "No characters found for subgroup: all" Example.start) /\
  getPairing Example.zeros [Example.Phoenix 1; Example.Maya 2] 0 "game"
    "homo-female" Example.start =
    Returns None
      (warned "Not enough females for same-sex pairing in subgroup: game"
         Example.start).
Proof.
  split.
  - apply (getPairing_too_few_females Example.zeros [Example.Phoenix 1] 0 "all"
             Example.start).
    intros c Hc. apply list_elem_of_singleton in Hc. subst c. discriminate.
  - apply (getPairing_too_few_females Example.zeros
             [Example.Phoenix 1; Example.Maya 2] 0 "game" Example.start).
    vm_compute. lia.
Defined.

Lemma candidates_nil subgroup : candidates [] subgroup = [].
Proof. unfold candidates, subgroup_tag. destruct (decide _); reflexivity. Qed.

(** X4. On the empty roster ([characters] before the load, and after a load that
    failed) [getPairing] returns [null] for every subgroup and every mode,
    after exactly one warning and without a draw; it neither throws nor
    loops. *)
Theorem getPairing_empty_roster
    (rnd : nat -> Q) (fuel : nat) (subgroup mode : string) (w : world) :
  exists msg,
    getPairing rnd [] fuel subgroup mode w = Returns None (warned msg w).
Proof.
  unfold getPairing, getPairing_by. fold (candidates [] subgroup).
  rewrite candidates_nil.
  destruct (decide (mode = MODES.NORMAL)); [eexists; reflexivity|].
  destruct (decide (mode = MODES.MM)); [eexists; reflexivity|].
  destruct (decide (mode = MODES.FF)); eexists; reflexivity.
Qed.

(** ** [getPairing]: draws and warnings *)

(** The tests of the loops read properties only: they leave the state as it
    is. *)
Lemma same_depiction_Returns subgroup first second b w w' :
  same_depiction subgroup first second w = Returns b w' ->
  exists x y, first = Some x /\ second = Some y /\ w' = w /\
              b = turned_down subgroup x y.
Proof.
  destruct first as [x|], second as [y|]; try discriminate.
  unfold same_depiction, turned_down, bind, prop, ret.
  intros H. exists x, y.
  destruct (bool_decide (image y = image x)); simpl.
  - injection H as <- <-. auto.
  - destruct (all_or_game subgroup); simpl; injection H as <- <-; auto.
Qed.

Lemma same_depiction_Some subgroup x y w :
  same_depiction subgroup (Some x) (Some y) w
    = Returns (turned_down subgroup x y) w.
Proof.
  unfold same_depiction, turned_down, bind, prop, ret.
  destruct (bool_decide (image y = image x)); simpl; [reflexivity|].
  destruct (all_or_game subgroup); reflexivity.
Qed.

(** A loop whose body is a draw and whose test keeps the state has, when it
    returns, read at least one value and written nothing. *)
Lemma do_while_draws rnd arr (cond : option Character -> run bool) fuel :
  (forall v b w w', cond v w = Returns b w' -> w' = w) ->
  forall w v w',
    do_while fuel (getRandomChar rnd arr) cond w = Returns v w' ->
    console w' = console w /\ (drawn w < drawn w')%nat.
Proof.
  intros Hcond. induction fuel as [|fuel IH]; intros w v w'; [discriminate|].
  simpl. intros H.
  apply bind_Returns in H as (v1 & w1 & Hbody & H).
  apply bind_Returns in H as (again & w2 & Htest & H).
  rewrite getRandomChar_eq in Hbody. injection Hbody as _ <-.
  apply Hcond in Htest as ->.
  destruct again.
  - apply IH in H as [Hc Hd]. simpl in *. split; [exact Hc|lia].
  - unfold ret in H. injection H as _ <-. simpl. split; [reflexivity|lia].
Qed.

(** X5. What a call does to the state.  When [getPairing] returns a pairing it
    has written no warning and has read at least two values of [Math.random]
    (exactly two in the opposite-gender mode outside "all" and "game"); when
    it returns [null] it has read none and has written exactly one warning. *)
Theorem getPairing_draws_and_warnings
    (rnd : nat -> Q) (characters : list Character)
    (fuel : nat) (subgroup mode : string) (w w' : world)
    (r : option Pairing) :
  getPairing rnd characters fuel subgroup mode w = Returns r w' ->
  match r with
  | Some _ =>
      console w' = console w /\ (drawn w + 2 <= drawn w')%nat /\
      (mode = "hetero" -> subgroup <> "all" -> subgroup <> "game" ->
       drawn w' = (drawn w + 2)%nat)
  | None =>
      drawn w' = drawn w /\ exists msg, console w' = (console w ++ [msg])%list
  end.
Proof.
  intros H. destruct r as [p|].
  - apply getPairing_Returns_Some in H.
    destruct H as [male female w1 _ _ Hfirst Hsecond
                  |male1 male2 w1 _ Hfirst Hloop
                  |female1 female2 w1 _ Hfirst Hloop];
      rewrite getRandomChar_eq in Hfirst; injection Hfirst as _ <-.
    + unfold all_or_game in Hsecond.
      destruct (bool_decide (subgroup = "all")) eqn:Eall;
        [|destruct (bool_decide (subgroup = "game")) eqn:Egame]; simpl in Hsecond.
      * apply do_while_draws in Hsecond as [Hc Hd].
        -- simpl in *. split; [exact Hc|]. split; [lia|].
           intros _ Hne. apply bool_decide_eq_true in Eall. contradiction.
        -- intros v b w2 w3 Ht.
           apply same_characterId_Returns in Ht as (? & ? & _ & _ & -> & _).
           reflexivity.
      * apply do_while_draws in Hsecond as [Hc Hd].
        -- simpl in *. split; [exact Hc|]. split; [lia|].
           intros _ _ Hne. apply bool_decide_eq_true in Egame. contradiction.
        -- intros v b w2 w3 Ht.
           apply same_characterId_Returns in Ht as (? & ? & _ & _ & -> & _).
           reflexivity.
      * rewrite getRandomChar_eq in Hsecond. injection Hsecond as _ <-.
        simpl. split; [reflexivity|]. split; lia.
    + apply do_while_draws in Hloop as [Hc Hd].
      * simpl in *. split; [exact Hc|]. split; [lia|discriminate].
      * intros v b w2 w3 Ht.
        apply same_depiction_Returns in Ht as (? & ? & _ & _ & -> & _).
        reflexivity.
    + apply do_while_draws in Hloop as [Hc Hd].
      * simpl in *. split; [exact Hc|]. split; [lia|discriminate].
      * intros v b w2 w3 Ht.
        apply same_depiction_Returns in Ht as (? & ? & _ & _ & -> & _).
        reflexivity.
  - revert H. open_getPairing characters subgroup.
    assert (Hwarn : forall msg,
      (let* _ := console_warn msg in ret (@None Pairing)) w = Returns None w' ->
      drawn w' = drawn w /\ exists msg, console w' = (console w ++ [msg])%list).
    { intros msg Hw. unfold bind, console_warn, ret in Hw.
      injection Hw as <-. simpl. eauto. }
    assert (Hpair : forall (c : run (option Character))
                           (k : option Character -> run (option Character))
                           (mk : option Character -> option Character -> Pairing),
      (let* a := c in let* b := k a in ret (Some (mk a b))) w <> Returns None w').
    { intros c k mk Hp.
      apply bind_Returns in Hp as (a & w1 & _ & Hp).
      apply bind_Returns in Hp as (b & w2 & _ & Hp). discriminate. }
    destruct (decide (mode = MODES.NORMAL)).
    { destruct (_ || _); [apply Hwarn|]. intros Hp. destruct (Hpair _ _ _ Hp). }
    destruct (decide (mode = MODES.MM)).
    { destruct (decide _); [apply Hwarn|]. intros Hp. destruct (Hpair _ _ _ Hp). }
    destruct (decide (mode = MODES.FF)).
    { destruct (decide _); [apply Hwarn|]. intros Hp. destruct (Hpair _ _ _ Hp). }
    apply Hwarn.
Qed.

Lemma getPairing_draws_and_warnings_witness :
  console (tick (tick Example.start)) = console Example.start /\
  (drawn Example.start + 2 <= drawn (tick (tick Example.start)))%nat /\
  ("homo-male" = "hetero" -> "pw1" <> "all" -> "pw1" <> "game" ->
   drawn (tick (tick Example.start)) = (drawn Example.start + 2)%nat).
Proof.
  apply (getPairing_draws_and_warnings Example.zero_then_half Example.twins
           1 "pw1" "homo-male" Example.start (tick (tick Example.start))
           (Some (MaleMale (Some Example.man1) (Some Example.man2)))).
  vm_compute. reflexivity.
Defined.

(** ** [getPairing]: the same-gender modes *)

(** X6. The object returned has the fields of its mode, and in the same-gender
    modes both members have the gender of the mode: two males for
    "homo-male", two females for "homo-female". *)
Theorem getPairing_same_gender_members
    (rnd : nat -> Q) (characters : list Character)
    (fuel : nat) (subgroup mode : string) (w w' : world) (p : Pairing) :
  getPairing rnd characters fuel subgroup mode w = Returns (Some p) w' ->
  (mode = "hetero" /\ exists m f, p = MaleFemale m f) \/
  (mode = "homo-male" /\
   exists a b, p = MaleMale (Some a) (Some b) /\
               gender a = "male" /\ gender b = "male") \/
  (mode = "homo-female" /\
   exists a b, p = FemaleFemale (Some a) (Some b) /\
               gender a = "female" /\ gender b = "female").
Proof.
  intros H. apply getPairing_Returns_Some in H.
  destruct H as [male female w1 _ _ _ _
                |male1 male2 w1 _ Hfirst Hloop
                |female1 female2 w1 _ Hfirst Hloop].
  - left. eauto.
  - right. left. split; [reflexivity|].
    pose proof Hloop as Hcond.
    apply do_while_Returns in Hcond as (w2 & w3 & _ & Hcond).
    apply same_depiction_false in Hcond as (a & b & -> & -> & _).
    exists a, b. split; [reflexivity|]. split.
    + eapply males_of_elem, getRandomChar_Some, Hfirst.
    + eapply males_of_elem, do_while_getRandomChar, Hloop.
  - right. right. split; [reflexivity|].
    pose proof Hloop as Hcond.
    apply do_while_Returns in Hcond as (w2 & w3 & _ & Hcond).
    apply same_depiction_false in Hcond as (a & b & -> & -> & _).
    exists a, b. split; [reflexivity|]. split.
    + eapply females_of_elem, getRandomChar_Some, Hfirst.
    + eapply females_of_elem, do_while_getRandomChar, Hloop.
Qed.

Lemma getPairing_same_gender_members_witness :
  ("homo-female" = "hetero" /\
   exists m f, FemaleFemale (Some Example.woman1) (Some Example.woman2)
               = MaleFemale m f) \/
  ("homo-female" = "homo-male" /\
   exists a b, FemaleFemale (Some Example.woman1) (Some Example.woman2)
               = MaleMale (Some a) (Some b) /\
               gender a = "male" /\ gender b = "male") \/
  ("homo-female" = "homo-female" /\
   exists a b, FemaleFemale (Some Example.woman1) (Some Example.woman2)
               = FemaleFemale (Some a) (Some b) /\
               gender a = "female" /\ gender b = "female").
Proof.
  apply (getPairing_same_gender_members Example.zero_then_half Example.twins
           1 "pw1" "homo-female" Example.start (tick (tick Example.start))).
  vm_compute. reflexivity.
Defined.

(** The loop of a same-gender branch, for a first member [first] that was
    drawn and an oracle with values in [0, 1). *)
Section Reloop.

Variable rnd : nat -> Q.
Variable arr : list Character.
Variable subgroup : string.
Variable first : Character.

Hypothesis rnd_unit : unit_interval rnd.
Hypothesis arr_nonempty : arr <> [].

Abbreviation reloop fuel :=
  (do_while fuel (getRandomChar rnd arr) (same_depiction subgroup (Some first))).

Lemma reloop_step fuel w :
  exists b, b ∈ arr /\
    item arr (floor_scaled (rnd (drawn w)) (length arr)) = Some b /\
    reloop (S fuel) w =
      if turned_down subgroup first b
      then reloop fuel (tick w)
      else Returns (Some b) (tick w).
Proof.
  destruct (getRandomChar_nonempty rnd rnd_unit arr w arr_nonempty)
    as (b & Hdraw & Hin).
  exists b. split; [exact Hin|]. split.
  - rewrite getRandomChar_eq in Hdraw. congruence.
  - simpl. rewrite (bind_eq _ _ _ _ _ Hdraw).
    rewrite (bind_eq _ _ _ _ _ (same_depiction_Some subgroup first b (tick w))).
    destruct (turned_down subgroup first b); reflexivity.
Qed.

Lemma reloop_outcome fuel :
  forall w,
    reloop fuel w = Running \/
    exists b w', reloop fuel w = Returns (Some b) w' /\
                 b ∈ arr /\ turned_down subgroup first b = false.
Proof.
  induction fuel as [|fuel IH]; intros w; [left; reflexivity|].
  destruct (reloop_step fuel w) as (b & Hin & _ & ->).
  destruct (turned_down subgroup first b) eqn:E.
  - apply IH.
  - right. exists b, (tick w). auto.
Qed.

End Reloop.

Lemma turned_down_false subgroup first second :
  turned_down subgroup first second = false <->
  image second <> image first /\
  (subgroup = "all" \/ subgroup = "game" ->
   characterId second <> characterId first).
Proof.
  unfold turned_down, all_or_game.
  repeat case_bool_decide; simpl; split; try discriminate; try tauto;
    intros; split; try tauto; intros [?|?]; congruence.
Qed.

Lemma ex_iff_turned_down_false (arr : list Character) subgroup first :
  (exists b, b ∈ arr /\ turned_down subgroup first b = false) <->
  (exists b, b ∈ arr /\ image b <> image first /\
             (subgroup = "all" \/ subgroup = "game" ->
              characterId b <> characterId first)).
Proof.
  split; intros (b & Hin & H); exists b; (split; [exact Hin|]);
    apply turned_down_false; exact H.
Qed.

Lemma getPairing_mm_loop rnd characters subgroup fuel w a :
  (2 <= length (males_of characters subgroup))%nat ->
  getRandomChar rnd (males_of characters subgroup) w = Returns (Some a) (tick w) ->
  getPairing rnd characters fuel subgroup "homo-male" w =
  match do_while fuel (getRandomChar rnd (males_of characters subgroup))
          (same_depiction subgroup (Some a)) (tick w) with
  | Returns male2 w' => Returns (Some (MaleMale (Some a) male2)) w'
  | Throws => Throws
  | Running => Running
  end.
Proof.
  intros Hlen Hdraw. rewrite getPairing_mm_eq by exact Hlen.
  rewrite (bind_eq _ _ _ _ _ Hdraw). reflexivity.
Qed.

Lemma getPairing_ff_loop rnd characters subgroup fuel w a :
  (2 <= length (females_of characters subgroup))%nat ->
  getRandomChar rnd (females_of characters subgroup) w
    = Returns (Some a) (tick w) ->
  getPairing rnd characters fuel subgroup "homo-female" w =
  match do_while fuel (getRandomChar rnd (females_of characters subgroup))
          (same_depiction subgroup (Some a)) (tick w) with
  | Returns female2 w' => Returns (Some (FemaleFemale (Some a) female2)) w'
  | Throws => Throws
  | Running => Running
  end.
Proof.
  intros Hlen Hdraw. rewrite getPairing_ff_eq by exact Hlen.
  rewrite (bind_eq _ _ _ _ _ Hdraw). reflexivity.
Qed.

Lemma length_2_nonempty {A} (l : list A) : (2 <= length l)%nat -> l <> [].
Proof. destruct l; simpl; [lia|discriminate]. Qed.

Lemma alternate_unit : unit_interval Example.alternate.
Proof.
  intros i. unfold Example.alternate.
  destruct (Nat.even i); split; (discriminate || reflexivity).
Qed.

(** ** [getPairing]: no exception *)

Lemma getPairing_mm_outcome rnd characters fuel subgroup w :
  unit_interval rnd ->
  (2 <= length (males_of characters subgroup))%nat ->
  getPairing rnd characters fuel subgroup "homo-male" w = Running \/
  exists a b w',
    getPairing rnd characters fuel subgroup "homo-male" w =
      Returns (Some (MaleMale (Some a) (Some b))) w'.
Proof.
  intros Hunit Hlen. pose proof (length_2_nonempty _ Hlen) as Hne.
  destruct (getRandomChar_nonempty rnd Hunit _ w Hne) as (a & Hdraw & _).
  rewrite (getPairing_mm_loop rnd characters subgroup fuel w a Hlen Hdraw).
  destruct (reloop_outcome rnd _ subgroup a Hunit Hne fuel (tick w))
    as [->|(b & w' & -> & _)]; [left; reflexivity|right; eauto].
Qed.

Lemma getPairing_ff_outcome rnd characters fuel subgroup w :
  unit_interval rnd ->
  (2 <= length (females_of characters subgroup))%nat ->
  getPairing rnd characters fuel subgroup "homo-female" w = Running \/
  exists a b w',
    getPairing rnd characters fuel subgroup "homo-female" w =
      Returns (Some (FemaleFemale (Some a) (Some b))) w'.
Proof.
  intros Hunit Hlen. pose proof (length_2_nonempty _ Hlen) as Hne.
  destruct (getRandomChar_nonempty rnd Hunit _ w Hne) as (a & Hdraw & _).
  rewrite (getPairing_ff_loop rnd characters subgroup fuel w a Hlen Hdraw).
  destruct (reloop_outcome rnd _ subgroup a Hunit Hne fuel (tick w))
    as [->|(b & w' & -> & _)]; [left; reflexivity|right; eauto].
Qed.

(** The three ways a call can go on an oracle with values in [0, 1): it is
    still in a loop, it has returned [null] after a warning, or it has
    returned a pairing with two characters. *)
Lemma getPairing_outcome rnd characters fuel subgroup mode w :
  unit_interval rnd ->
  getPairing rnd characters fuel subgroup mode w = Running \/
  (exists msg,
     getPairing rnd characters fuel subgroup mode w
       = Returns None (warned msg w)) \/
  (exists p a b w',
     getPairing rnd characters fuel subgroup mode w = Returns (Some p) w' /\
     members p = (Some a, Some b)).
Proof.
  intros Hunit.
  destruct (decide (mode = "hetero")) as [->|Hn].
  { destruct (decide (males_of characters subgroup = [])) as [Em|Em].
    { right. left. eexists. open_getPairing characters subgroup.
      rewrite Em. reflexivity. }
    destruct (decide (females_of characters subgroup = [])) as [Ef|Ef].
    { right. left. eexists. open_getPairing characters subgroup.
      rewrite Ef. rewrite decide_True by reflexivity.
      rewrite orb_true_r. reflexivity. }
    destruct (getPairing_hetero_outcome rnd characters fuel subgroup w
                Hunit Em Ef) as [[Hrun _]|(a & b & w' & Hret & _)];
      [left; exact Hrun|].
    right. right. exists (MaleFemale (Some a) (Some b)), a, b, w'. auto. }
  destruct (decide (mode = "homo-male")) as [->|Hm].
  { destruct (decide (length (males_of characters subgroup) < 2)%nat)
      as [Hlt|Hge].
    { right. left. eexists. open_getPairing characters subgroup.
      rewrite decide_False by discriminate.
      rewrite decide_True by reflexivity.
      rewrite decide_True by exact Hlt. reflexivity. }
    destruct (getPairing_mm_outcome rnd characters fuel subgroup w Hunit)
      as [Hrun|(a & b & w' & Hret)]; [lia|left; exact Hrun|].
    right. right. exists (MaleMale (Some a) (Some b)), a, b, w'. auto. }
  destruct (decide (mode = "homo-female")) as [->|Hf].
  { destruct (decide (length (females_of characters subgroup) < 2)%nat)
      as [Hlt|Hge].
    { right. left. eexists. open_getPairing characters subgroup.
      rewrite !decide_False by discriminate.
      rewrite decide_True by reflexivity.
      rewrite decide_True by exact Hlt. reflexivity. }
    destruct (getPairing_ff_outcome rnd characters fuel subgroup w Hunit)
      as [Hrun|(a & b & w' & Hret)]; [lia|left; exact Hrun|].
    right. right. exists (FemaleFemale (Some a) (Some b)), a, b, w'. auto. }
  right. left. eexists. unfold getPairing, getPairing_by.
  rewrite !decide_False by assumption. reflexivity.
Qed.

(** X9. On an oracle with values in [0, 1) no call of [getPairing] throws,
    whatever the roster, the subgroup and the mode; and a value it returns is
    [null] or a pairing whose two members are characters, never
    [undefined]. *)
Theorem getPairing_never_throws
    (rnd : nat -> Q) (characters : list Character)
    (fuel : nat) (subgroup mode : string) (w : world) :
  unit_interval rnd ->
  getPairing rnd characters fuel subgroup mode w <> Throws /\
  forall p w',
    getPairing rnd characters fuel subgroup mode w = Returns (Some p) w' ->
    exists a b, members p = (Some a, Some b).
Proof.
  intros Hunit.
  destruct (getPairing_outcome rnd characters fuel subgroup mode w Hunit)
    as [->|[[msg ->]|(p & a & b & w1 & -> & Hmem)]].
  - split; discriminate.
  - split; discriminate.
  - split; [discriminate|]. intros p' w' [= <- <-]. eauto.
Qed.

Lemma getPairing_never_throws_witness :
  getPairing Example.alternate Example.cast 5 "game" "hetero" Example.start
    <> Throws /\
  forall p w',
    getPairing Example.alternate Example.cast 5 "game" "hetero" Example.start
      = Returns (Some p) w' ->
    exists a b, members p = (Some a, Some b).
Proof.
  apply (getPairing_never_throws Example.alternate Example.cast 5 "game"
           "hetero" Example.start).
  exact alternate_unit.
Defined.

(** ** [getPairing]: a roster with one record per image *)

Lemma unique_image (characters : list Character) a b :
  NoDup (image <$> characters) ->
  a ∈ characters -> b ∈ characters -> image a = image b -> a = b.
Proof.
  induction characters as [|c l IH]; intros Hnd Ha Hb Himg.
  - inversion Ha.
  - rewrite fmap_cons in Hnd. apply NoDup_cons in Hnd as [Hc Hnd].
    apply elem_of_cons in Ha as [->|Ha];
      apply elem_of_cons in Hb as [->|Hb]; auto.
    + destruct Hc. rewrite Himg. apply list_elem_of_fmap_2, Hb.
    + destruct Hc. rewrite <- Himg. apply list_elem_of_fmap_2, Ha.
Qed.

(** The two members have different images in the same-gender modes, and in
    every mode on a roster with one record per image. *)
Lemma members_images_differ rnd characters fuel subgroup mode w w' p a b :
  mode <> "hetero" \/ NoDup (image <$> characters) ->
  getPairing rnd characters fuel subgroup mode w = Returns (Some p) w' ->
  members p = (Some a, Some b) ->
  image a <> image b.
Proof.
  intros Hor H Hmem. apply getPairing_Returns_Some in H.
  destruct H as [male female w1 _ _ Hfirst Hsecond
                |male1 male2 w1 _ _ Hloop
                |female1 female2 w1 _ _ Hloop]; simpl in Hmem.
  - destruct Hor as [Hne|Hnd]; [congruence|].
    injection Hmem as -> ->.
    assert (Ha : a ∈ males_of characters subgroup).
    { eapply getRandomChar_Some, Hfirst. }
    assert (Hb : b ∈ females_of characters subgroup).
    { destruct (all_or_game subgroup).
      - eapply do_while_getRandomChar, Hsecond.
      - eapply getRandomChar_Some, Hsecond. }
    apply males_of_elem in Ha as [Ga Ha]. apply females_of_elem in Hb as [Gb Hb].
    apply candidates_elem in Ha as [Ha _]. apply candidates_elem in Hb as [Hb _].
    intros Himg. pose proof (unique_image characters a b Hnd Ha Hb Himg) as E.
    subst b. rewrite Ga in Gb. discriminate.
  - injection Hmem as -> ->.
    apply do_while_Returns in Hloop as (w2 & w3 & _ & Hcond).
    apply same_depiction_false in Hcond as (x & y & [= <-] & [= <-] & _ & Hi & _).
    congruence.
  - injection Hmem as -> ->.
    apply do_while_Returns in Hloop as (w2 & w3 & _ & Hcond).
    apply same_depiction_false in Hcond as (x & y & [= <-] & [= <-] & _ & Hi & _).
    congruence.
Qed.

(** X10. The opposite-gender branch does not compare [image].  When no two records
    of the roster have the same [image] this does no harm: in every mode and
    for every subgroup the two characters of a returned pairing have
    different [image]. *)
Theorem getPairing_distinct_image_all_modes
    (rnd : nat -> Q) (characters : list Character)
    (fuel : nat) (subgroup mode : string) (w w' : world) (p : Pairing)
    (a b : Character) :
  NoDup (image <$> characters) ->
  getPairing rnd characters fuel subgroup mode w = Returns (Some p) w' ->
  members p = (Some a, Some b) ->
  image a <> image b.
Proof.
  intros Hnd. apply members_images_differ. right. exact Hnd.
Qed.

Lemma getPairing_distinct_image_all_modes_witness :
  image Example.man1 <> image Example.woman2.
Proof.
  apply (getPairing_distinct_image_all_modes Example.zero_then_half
           Example.twins 1 "pw1" "hetero" Example.start
           (tick (tick Example.start))
           (MaleFemale (Some Example.man1) (Some Example.woman2))).
  - apply (bool_decide_unpack _). vm_compute. exact I.
  - vm_compute. reflexivity.
  - reflexivity.
Defined.

Lemma NoDup_image_filter (P : Character -> Prop) `{!forall c, Decision (P c)}
    (l : list Character) :
  NoDup (image <$> l) -> NoDup (image <$> filter P l).
Proof.
  induction l as [|c l IH]; [intros; constructor|].
  rewrite fmap_cons, filter_cons. intros [Hc Hnd]%NoDup_cons.
  destruct (decide (P c)); [|exact (IH Hnd)].
  rewrite fmap_cons. apply NoDup_cons. split; [|exact (IH Hnd)].
  intros (y & Hy & Hin)%list_elem_of_fmap. apply Hc.
  rewrite Hy. apply list_elem_of_fmap_2.
  apply list_elem_of_filter in Hin. tauto.
Qed.

Lemma NoDup_image_candidates characters subgroup :
  NoDup (image <$> characters) ->
  NoDup (image <$> candidates characters subgroup).
Proof.
  unfold candidates, subgroup_tag. destruct (decide _); simpl; [auto|].
  apply NoDup_image_filter.
Qed.

(** Among two or more records with different images one differs from any
    given image. *)
Lemma other_image (l : list Character) (img : string) :
  NoDup (image <$> l) -> (2 <= length l)%nat ->
  exists b, b ∈ l /\ image b <> img.
Proof.
  destruct l as [|x [|y l]]; simpl; [lia..|]. intros Hnd _.
  apply NoDup_cons in Hnd as [Hx _].
  destruct (decide (image x = img)) as [E|E].
  - exists y. split; [right; left|]. intros Ey. apply Hx.
    rewrite E, <- Ey. left.
  - exists x. split; [left|exact E].
Qed.

(** ** [getPairing]: characters outside the subgroup *)

Lemma candidates_app characters extra subgroup :
  candidates (characters ++ extra) subgroup =
  (candidates characters subgroup ++ candidates extra subgroup)%list.
Proof.
  unfold candidates, subgroup_tag. destruct (decide _); simpl; [reflexivity|].
  apply filter_app.
Qed.

(** X12. Records that do not carry the tag of the subgroup play no part: putting
    them on the roster changes neither the result of [getPairing] for that
    subgroup nor the draws it makes. *)
Theorem getPairing_ignores_untagged
    (rnd : nat -> Q) (characters extra : list Character)
    (fuel : nat) (subgroup mode : string) (w : world) :
  subgroup <> "all" ->
  (forall c, c ∈ extra -> subgroup ∉ tags c) ->
  getPairing rnd (characters ++ extra) fuel subgroup mode w =
  getPairing rnd characters fuel subgroup mode w.
Proof.
  intros Hall Hextra.
  assert (E : candidates (characters ++ extra) subgroup
              = candidates characters subgroup).
  { rewrite candidates_app.
    replace (candidates extra subgroup) with (@nil Character);
      [apply app_nil_r|].
    symmetry. unfold candidates, subgroup_tag.
    rewrite decide_False by exact Hall. simpl.
    apply filter_none. exact Hextra. }
  unfold getPairing, getPairing_by.
  fold (candidates (characters ++ extra) subgroup).
  fold (candidates characters subgroup).
  rewrite E. reflexivity.
Qed.

Lemma getPairing_ignores_untagged_witness :
  getPairing Example.zero_then_half (Example.twins ++ [Example.phoenix_f]) 1
    "pw1" "homo-female" Example.start =
  getPairing Example.zero_then_half Example.twins 1 "pw1" "homo-female"
    Example.start.
Proof.
  apply (getPairing_ignores_untagged Example.zero_then_half Example.twins
           [Example.phoenix_f] 1 "pw1" "homo-female" Example.start).
  - discriminate.
  - intros c Hc. apply list_elem_of_singleton in Hc. subst c.
    vm_compute. intros H. inversion H as [|? ? ? H1]; subst.
    inversion H1.
Defined.

(** ** [generatePairing]: the assignments *)

Lemma assign_elements id property v (doc : document) id' :
  is_Some (assign id property v doc !! id') <-> is_Some (doc !! id').
Proof.
  unfold assign. destruct (doc !! id) as [el|] eqn:E; [|reflexivity].
  unfold document, element in *.
  destruct (decide (id = id')) as [<-|Hne].
  - rewrite lookup_insert_eq, E. split; eauto.
  - rewrite lookup_insert_ne by exact Hne. reflexivity.
Qed.

Lemma get_prop_assign id property v (doc : document) id' property' :
  is_Some (doc !! id) ->
  get_prop id' property' (assign id property v doc) =
  if decide (id' = id /\ property' = property) then Some v
  else get_prop id' property' doc.
Proof.
  intros [el E]. unfold get_prop, assign. rewrite E.
  unfold document, element in *.
  destruct (decide (id = id')) as [<-|Hne].
  - rewrite lookup_insert_eq, E.
    destruct (decide (property = property')) as [<-|Hp].
    + rewrite lookup_insert_eq, decide_True by auto. reflexivity.
    + rewrite lookup_insert_ne by exact Hp.
      rewrite decide_False by (intros [_ ?]; congruence). reflexivity.
  - rewrite lookup_insert_ne by exact Hne.
    rewrite decide_False by (intros [? _]; congruence). reflexivity.
Qed.

Lemma set_prop_assign id property v (doc : document) w :
  is_Some (doc !! id) ->
  set_prop id property v doc w = Returns (assign id property v doc) w.
Proof. intros [el E]. unfold set_prop, assign. rewrite E. reflexivity. Qed.

Lemma set_prop_missing id property v (doc : document) w :
  doc !! id = None -> set_prop id property v doc w = Throws.
Proof. intros E. unfold set_prop. rewrite E. reflexivity. Qed.

Lemma page_ready_has (doc : document) id :
  page_ready doc -> id ∈ page_ids -> is_Some (doc !! id).
Proof.
  intros [Hall _] Hin. rewrite Forall_forall in Hall. apply Hall, Hin.
Qed.

(** Proves that an element of [page_ids] is still there after some
    assignments. *)
Ltac has_element Hready :=
  repeat (apply (proj2 (assign_elements _ _ _ _ _)));
  apply (page_ready_has _ _ Hready);
  apply (bool_decide_unpack _); vm_compute; exact I.

Lemma bind_ret {A B} (a : A) (k : A -> run B) w : bind (ret a) k w = k a w.
Proof. reflexivity. Qed.

Lemma bind_set_prop {B} id property v (doc : document) (k : document -> run B) w :
  is_Some (doc !! id) ->
  bind (set_prop id property v doc) k w = k (assign id property v doc) w.
Proof. intros H. apply bind_eq, set_prop_assign, H. Qed.

(** One assignment of the script, on a page that has the element. *)
Ltac step_assign Hready :=
  first [ rewrite bind_set_prop by has_element Hready
        | rewrite set_prop_assign by has_element Hready ].

(** On a page that has its elements [generatePairing] is the call of
    [getPairing] for the decoded selector followed by the assignments of one
    of the two paths. *)
Lemma generatePairing_run rnd characters fuel (doc : document) selector w :
  page_ready doc ->
  get_prop "pairingSelector" "value" doc = Some selector ->
  generatePairing rnd characters fuel doc w =
  match getPairing rnd characters fuel (selector_subgroup selector)
          (finalMode selector) w with
  | Returns None w' => Returns (error_shown doc) w'
  | Returns (Some pairing) w' =>
      match displayed (finalMode selector) pairing with
      | (Some char1, Some char2) => Returns (pairing_shown char1 char2 doc) w'
      | _ => Throws
      end
  | Throws => Throws
  | Running => Running
  end.
Proof.
  intros Hready Hsel. unfold generatePairing. rewrite Hsel, bind_ret.
  do 2 step_assign Hready.
  unfold bind at 1.
  destruct (getPairing rnd characters fuel _ _ w) as [[pairing|] w'| |];
    [| |reflexivity..].
  - step_assign Hready.
    destruct (displayed (finalMode selector) pairing) as [[char1|] [char2|]];
      cbn [prop]; try reflexivity.
    + rewrite bind_ret. step_assign Hready.
      rewrite bind_ret. step_assign Hready.
      rewrite bind_ret. step_assign Hready.
      rewrite bind_ret. step_assign Hready.
      rewrite bind_ret. step_assign Hready.
      rewrite bind_ret. step_assign Hready.
      step_assign Hready. reflexivity.
    + rewrite bind_ret. step_assign Hready.
      rewrite bind_ret. step_assign Hready.
      rewrite bind_ret. step_assign Hready.
      reflexivity.
  - step_assign Hready. step_assign Hready. reflexivity.
Qed.

(** ** [generatePairing]: decoding the selector *)

Lemma split_before_dash (s rest : string) :
  includes "-" s = false ->
  (split "-"%char (s +:+ String "-"%char rest)).1 = s.
Proof.
  induction s as [|c s IH]; simpl.
  - intros _. destruct (split "-"%char rest). reflexivity.
  - intros H. apply orb_false_elim in H as [Hc Hs].
    specialize (IH Hs).
    destruct (split "-"%char (s +:+ String "-"%char rest)) as [piece pieces].
    simpl in IH. subst piece.
    destruct (Ascii.eqb_spec c "-"%char) as [->|Hne]; [discriminate|].
    reflexivity.
Qed.

Lemma includes_app_r (pattern s t : string) :
  includes pattern t = true -> includes pattern (s +:+ t) = true.
Proof.
  intros Ht. induction s as [|c s IH]; simpl; [exact Ht|].
  rewrite IH. apply orb_true_r.
Qed.

(** A pattern of two characters that occurs neither in [s] nor in [t] does
    not occur in [s +:+ t] when [t] does not begin with its second
    character. *)
Lemma includes_app_two (a b : Ascii.ascii) (s t : string) :
  includes (String a (String b "")) s = false ->
  includes (String a (String b "")) t = false ->
  startsWith (String b "") t = false ->
  includes (String a (String b "")) (s +:+ t) = false.
Proof.
  intros Hs Ht Hb. induction s as [|c s IH]; [exact Ht|].
  change (String c s +:+ t) with (String c (s +:+ t)).
  cbn [includes] in Hs |- *.
  apply orb_false_elim in Hs as [Hc Hs]. rewrite (IH Hs), orb_false_r.
  cbn [startsWith] in Hc |- *. destruct (Ascii.eqb a c); [|reflexivity].
  destruct s as [|d s]; [exact Hb|exact Hc].
Qed.

(** X13. The selector is written "subgroup-mode", with "normal", "MM" or "FF" for
    the mode.  For a subgroup without a dash in which neither "MM" nor "FF"
    occurs, [generatePairing] gets the subgroup back and passes the mode on
    as "hetero", "homo-male" and "homo-female" in turn. *)
Theorem selector_decoded (subgroup : string) :
  includes "-" subgroup = false ->
  includes "MM" subgroup = false ->
  includes "FF" subgroup = false ->
  (selector_subgroup (subgroup +:+ "-normal") = subgroup /\
   finalMode (subgroup +:+ "-normal") = "hetero") /\
  (selector_subgroup (subgroup +:+ "-MM") = subgroup /\
   finalMode (subgroup +:+ "-MM") = "homo-male") /\
  (selector_subgroup (subgroup +:+ "-FF") = subgroup /\
   finalMode (subgroup +:+ "-FF") = "homo-female").
Proof.
  intros Hdash Hmm Hff. unfold selector_subgroup, finalMode.
  repeat split; try (apply split_before_dash; exact Hdash).
  - rewrite !includes_app_two by (assumption || reflexivity). reflexivity.
  - rewrite includes_app_r by reflexivity. reflexivity.
  - rewrite includes_app_two by (assumption || reflexivity).
    rewrite includes_app_r by reflexivity. reflexivity.
Qed.

Lemma selector_decoded_witness :
  (selector_subgroup ("pw1" +:+ "-normal") = "pw1" /\
   finalMode ("pw1" +:+ "-normal") = "hetero") /\
  (selector_subgroup ("pw1" +:+ "-MM") = "pw1" /\
   finalMode ("pw1" +:+ "-MM") = "homo-male") /\
  (selector_subgroup ("pw1" +:+ "-FF") = "pw1" /\
   finalMode ("pw1" +:+ "-FF") = "homo-female").
Proof.
  apply (selector_decoded "pw1"); reflexivity.
Defined.

Lemma startsWith_app (pattern s t : string) :
  startsWith pattern s = true -> startsWith pattern (s +:+ t) = true.
Proof.
  revert s. induction pattern as [|a pattern IH]; intros s; [reflexivity|].
  destruct s as [|c s]; [discriminate|].
  change (String c s +:+ t) with (String c (s +:+ t)). cbn [startsWith].
  destruct (Ascii.eqb a c); [apply IH|discriminate].
Qed.

Lemma includes_app_l (pattern s t : string) :
  includes pattern s = true -> includes pattern (s +:+ t) = true.
Proof.
  induction s as [|c s IH].
  - cbn [includes]. intros H. destruct pattern; [|discriminate].
    destruct t; reflexivity.
  - change (String c s +:+ t) with (String c (s +:+ t)). cbn [includes].
    intros [H|H]%orb_true_iff; apply orb_true_iff.
    + left. apply (startsWith_app _ (String c s) t), H.
    + right. apply IH, H.
Qed.

(** X14. The mode is read off the whole selector, the subgroup included: for a
    subgroup in which "MM" occurs [getPairing] is called in the male-male
    mode, whatever mode the selector asks for. *)
Theorem finalMode_reads_subgroup (subgroup mode : string) :
  includes "MM" subgroup = true ->
  finalMode (subgroup +:+ "-" +:+ mode) = "homo-male".
Proof.
  intros H. unfold finalMode.
  rewrite (includes_app_l "MM" subgroup ("-" +:+ mode) H). reflexivity.
Qed.

Lemma finalMode_reads_subgroup_witness :
  finalMode ("MMX" +:+ "-" +:+ "FF") = "homo-male".
Proof.
  apply (finalMode_reads_subgroup "MMX" "FF"). reflexivity.
Defined.

(** ** [generatePairing]: what the page shows *)

(** Reads a property of the page after the assignments of a path. *)
Ltac read_page Hready :=
  unfold error_shown, pairing_shown, cleared;
  rewrite ?get_prop_assign by has_element Hready;
  repeat first [ rewrite decide_True by (split; reflexivity)
               | rewrite decide_False by (intros [? ?]; congruence) ];
  try reflexivity.

Lemma displayed_members rnd characters fuel subgroup mode w p w' :
  getPairing rnd characters fuel subgroup mode w = Returns (Some p) w' ->
  displayed mode p = members p.
Proof.
  intros H. apply getPairing_Returns_Some in H. destruct H; reflexivity.
Qed.

(** X15. When [getPairing] returns [null] for the decoded selector, the page ends
    with the error text in the error box, its class set to "error" and the
    pairing hidden.  The [style.display] of the error box is not touched, and
    the names and pictures of an earlier pairing stay in their (hidden)
    elements. *)
Theorem generatePairing_shows_error
    (rnd : nat -> Q) (characters : list Character) (fuel : nat)
    (doc : document) (selector : string) (w w' : world) :
  page_ready doc ->
  get_prop "pairingSelector" "value" doc = Some selector ->
  getPairing rnd characters fuel (selector_subgroup selector)
    (finalMode selector) w = Returns None w' ->
  exists doc',
    generatePairing rnd characters fuel doc w = Returns doc' w' /\
    get_prop "error" "innerHTML" doc' = Some NO_PAIRING /\
    get_prop "error" "className" doc' = Some "error" /\
    get_prop "pairing" "style.display" doc' = Some "none" /\
    get_prop "error" "style.display" doc' = get_prop "error" "style.display" doc /\
    (forall id property,
       id <> "error" -> id <> "pairing" ->
       get_prop id property doc' = get_prop id property doc).
Proof.
  intros Hready Hsel Hnull. exists (error_shown doc).
  rewrite (generatePairing_run _ _ _ _ _ _ Hready Hsel), Hnull.
  split; [reflexivity|].
  repeat split; try (read_page Hready).
  intros id property He Hp. read_page Hready.
Qed.

Lemma generatePairing_shows_error_witness :
  exists doc',
    generatePairing Example.zeros Example.twins 0 (Demo.blank "game-MM")
      Example.start
      = Returns doc'
          (warned "Not enough males for homo pairing in subgroup: game"
             Example.start) /\
    get_prop "error" "innerHTML" doc' = Some NO_PAIRING /\
    get_prop "error" "className" doc' = Some "error" /\
    get_prop "pairing" "style.display" doc' = Some "none" /\
    get_prop "error" "style.display" doc'
      = get_prop "error" "style.display" (Demo.blank "game-MM") /\
    (forall id property,
       id <> "error" -> id <> "pairing" ->
       get_prop id property doc' = get_prop id property (Demo.blank "game-MM")).
Proof.
  apply (generatePairing_shows_error Example.zeros Example.twins 0
           (Demo.blank "game-MM") "game-MM" Example.start).
  - split; [|vm_compute; eauto].
    apply (bool_decide_unpack _). vm_compute. exact I.
  - reflexivity.
  - reflexivity.
Defined.

(** X16. When [getPairing] returns a pairing of two characters, the page ends with
    their names and the paths of their pictures in the two slots, in the
    order of the fields of the pairing, the pairing shown ("grid"), the error
    text emptied and the error box hidden. *)
Theorem generatePairing_shows_pairing
    (rnd : nat -> Q) (characters : list Character) (fuel : nat)
    (doc : document) (selector : string) (w w' : world)
    (p : Pairing) (a b : Character) :
  page_ready doc ->
  get_prop "pairingSelector" "value" doc = Some selector ->
  getPairing rnd characters fuel (selector_subgroup selector)
    (finalMode selector) w = Returns (Some p) w' ->
  members p = (Some a, Some b) ->
  exists doc',
    generatePairing rnd characters fuel doc w = Returns doc' w' /\
    get_prop "char1Name" "textContent" doc' = Some (name a) /\
    get_prop "char1Image" "src" doc'
      = Some ("./characters/" +:+ image a +:+ ".png") /\
    get_prop "char1Image" "alt" doc' = Some (name a) /\
    get_prop "char2Name" "textContent" doc' = Some (name b) /\
    get_prop "char2Image" "src" doc'
      = Some ("./characters/" +:+ image b +:+ ".png") /\
    get_prop "char2Image" "alt" doc' = Some (name b) /\
    get_prop "pairing" "style.display" doc' = Some "grid" /\
    get_prop "error" "innerHTML" doc' = Some "" /\
    get_prop "error" "style.display" doc' = Some "none".
Proof.
  intros Hready Hsel Hret Hmem. exists (pairing_shown a b doc).
  rewrite (generatePairing_run _ _ _ _ _ _ Hready Hsel), Hret.
  rewrite (displayed_members _ _ _ _ _ _ _ _ Hret), Hmem.
  split; [reflexivity|].
  repeat split; read_page Hready.
Qed.

Lemma blank_ready selector : page_ready (Demo.blank selector).
Proof.
  split; [|vm_compute; eauto].
  apply (bool_decide_unpack _). vm_compute. exact I.
Qed.

Lemma generatePairing_shows_pairing_witness :
  exists doc',
    generatePairing Example.zero_then_half Example.twins 1 (Demo.blank "pw1-MM")
      Example.start = Returns doc' (tick (tick Example.start)) /\
    get_prop "char1Name" "textContent" doc' = Some (name Example.man1) /\
    get_prop "char1Image" "src" doc'
      = Some ("./characters/" +:+ image Example.man1 +:+ ".png") /\
    get_prop "char1Image" "alt" doc' = Some (name Example.man1) /\
    get_prop "char2Name" "textContent" doc' = Some (name Example.man2) /\
    get_prop "char2Image" "src" doc'
      = Some ("./characters/" +:+ image Example.man2 +:+ ".png") /\
    get_prop "char2Image" "alt" doc' = Some (name Example.man2) /\
    get_prop "pairing" "style.display" doc' = Some "grid" /\
    get_prop "error" "innerHTML" doc' = Some "" /\
    get_prop "error" "style.display" doc' = Some "none".
Proof.
  apply (generatePairing_shows_pairing Example.zero_then_half Example.twins 1
           (Demo.blank "pw1-MM") "pw1-MM" Example.start
           (tick (tick Example.start))
           (MaleMale (Some Example.man1) (Some Example.man2))).
  - apply blank_ready.
  - reflexivity.
  - vm_compute. reflexivity.
  - reflexivity.
Defined.

Lemma error_shown_ready (doc : document) :
  page_ready doc ->
  page_ready (error_shown doc) /\
  get_prop "pairingSelector" "value" (error_shown doc)
    = get_prop "pairingSelector" "value" doc.
Proof.
  intros Hready.
  assert (E : get_prop "pairingSelector" "value" (error_shown doc)
              = get_prop "pairingSelector" "value" doc) by read_page Hready.
  split; [|exact E]. split.
  - apply Forall_forall. intros id Hin. unfold error_shown, cleared.
    repeat (apply (proj2 (assign_elements _ _ _ _ _))).
    apply (page_ready_has _ _ Hready Hin).
  - rewrite E. apply Hready.
Qed.

Lemma pairing_shown_ready a b (doc : document) :
  page_ready doc ->
  page_ready (pairing_shown a b doc) /\
  get_prop "pairingSelector" "value" (pairing_shown a b doc)
    = get_prop "pairingSelector" "value" doc.
Proof.
  intros Hready.
  assert (E : get_prop "pairingSelector" "value" (pairing_shown a b doc)
              = get_prop "pairingSelector" "value" doc) by read_page Hready.
  split; [|exact E]. split.
  - apply Forall_forall. intros id Hin. unfold pairing_shown, cleared.
    repeat (apply (proj2 (assign_elements _ _ _ _ _))).
    apply (page_ready_has _ _ Hready Hin).
  - rewrite E. apply Hready.
Qed.

(** The outcomes of [generatePairing] on a page that has its elements, for an
    oracle with values in [0, 1). *)
Lemma generatePairing_outcome rnd characters fuel (doc : document) selector w :
  unit_interval rnd ->
  page_ready doc ->
  get_prop "pairingSelector" "value" doc = Some selector ->
  generatePairing rnd characters fuel doc w = Running \/
  (exists msg,
     getPairing rnd characters fuel (selector_subgroup selector)
       (finalMode selector) w = Returns None (warned msg w) /\
     generatePairing rnd characters fuel doc w
       = Returns (error_shown doc) (warned msg w)) \/
  (exists p a b w',
     getPairing rnd characters fuel (selector_subgroup selector)
       (finalMode selector) w = Returns (Some p) w' /\
     members p = (Some a, Some b) /\
     generatePairing rnd characters fuel doc w
       = Returns (pairing_shown a b doc) w').
Proof.
  intros Hunit Hready Hsel.
  rewrite (generatePairing_run _ _ _ _ _ _ Hready Hsel).
  destruct (getPairing_outcome rnd characters fuel (selector_subgroup selector)
              (finalMode selector) w Hunit)
    as [Hrun|[[msg Hnull]|(p & a & b & w' & Hret & Hmem)]].
  - left. rewrite Hrun. reflexivity.
  - right. left. exists msg. rewrite Hnull. auto.
  - right. right. exists p, a, b, w'.
    rewrite Hret, (displayed_members _ _ _ _ _ _ _ _ Hret), Hmem. auto.
Qed.

(** X17. On a page that has its seven elements and a selector value, and with
    values of [Math.random] in [0, 1), [generatePairing] does not throw,
    whatever the roster and the selector.  When it returns, the page still
    has its elements and the selector its value: the handler can run
    again. *)
Theorem generatePairing_never_throws
    (rnd : nat -> Q) (characters : list Character) (fuel : nat)
    (doc : document) (w : world) :
  unit_interval rnd ->
  page_ready doc ->
  generatePairing rnd characters fuel doc w <> Throws /\
  forall doc' w',
    generatePairing rnd characters fuel doc w = Returns doc' w' ->
    page_ready doc' /\
    get_prop "pairingSelector" "value" doc'
      = get_prop "pairingSelector" "value" doc.
Proof.
  intros Hunit Hready. destruct (proj2 Hready) as [selector Hsel].
  destruct (generatePairing_outcome rnd characters fuel doc selector w
              Hunit Hready Hsel)
    as [->|[(msg & _ & ->)|(p & a & b & w1 & _ & _ & ->)]].
  - split; discriminate.
  - split; [discriminate|]. intros doc' w' [= <- <-].
    apply error_shown_ready, Hready.
  - split; [discriminate|]. intros doc' w' [= <- <-].
    apply pairing_shown_ready, Hready.
Qed.

Lemma generatePairing_never_throws_witness :
  generatePairing Example.alternate Example.cast 3 (Demo.blank "game-normal")
    Example.start <> Throws /\
  forall doc' w',
    generatePairing Example.alternate Example.cast 3 (Demo.blank "game-normal")
      Example.start = Returns doc' w' ->
    page_ready doc' /\
    get_prop "pairingSelector" "value" doc'
      = get_prop "pairingSelector" "value" (Demo.blank "game-normal").
Proof.
  apply (generatePairing_never_throws Example.alternate Example.cast 3
           (Demo.blank "game-normal") Example.start).
  - exact alternate_unit.
  - apply blank_ready.
Defined.

(** X18. Without the selector, the error box or the pairing box on the page,
    [generatePairing] throws before it calls [getPairing]. *)
Theorem generatePairing_missing_element
    (rnd : nat -> Q) (characters : list Character) (fuel : nat)
    (doc : document) (w : world) :
  doc !! "pairingSelector" = None \/ doc !! "error" = None \/
  doc !! "pairing" = None ->
  generatePairing rnd characters fuel doc w = Throws.
Proof.
  intros Hmiss. unfold generatePairing.
  destruct (get_prop "pairingSelector" "value" doc) as [selector|] eqn:Hsel;
    [|reflexivity].
  rewrite bind_ret.
  destruct (doc !! "error") as [el|] eqn:He.
  - rewrite bind_set_prop by (rewrite He; eauto).
    destruct Hmiss as [Hs|[?|Hp]]; [|discriminate|].
    + unfold get_prop in Hsel. rewrite Hs in Hsel. discriminate.
    + unfold bind at 1. rewrite set_prop_missing; [reflexivity|].
      unfold assign. rewrite He. unfold document, element in *.
      rewrite lookup_insert_ne by discriminate. exact Hp.
  - unfold bind at 1. rewrite set_prop_missing by exact He. reflexivity.
Qed.

Lemma generatePairing_missing_element_witness :
  generatePairing Example.zeros Example.twins 1
    ({[ "pairingSelector" := {[ "value" := "pw1-MM" ]} ]} : document)
    Example.start = Throws.
Proof.
  apply generatePairing_missing_element. right. left. reflexivity.
Defined.

(** How a returning call of [generatePairing] went. *)
Lemma generatePairing_Returns rnd characters fuel (doc : document) selector
    w doc' w' :
  page_ready doc ->
  get_prop "pairingSelector" "value" doc = Some selector ->
  generatePairing rnd characters fuel doc w = Returns doc' w' ->
  (getPairing rnd characters fuel (selector_subgroup selector)
     (finalMode selector) w = Returns None w' /\
   doc' = error_shown doc) \/
  (exists p a b,
     getPairing rnd characters fuel (selector_subgroup selector)
       (finalMode selector) w = Returns (Some p) w' /\
     members p = (Some a, Some b) /\
     doc' = pairing_shown a b doc).
Proof.
  intros Hready Hsel. rewrite (generatePairing_run _ _ _ _ _ _ Hready Hsel).
  destruct (getPairing rnd characters fuel _ _ w) as [[p|] w1| |] eqn:Hret;
    try discriminate.
  - rewrite (displayed_members _ _ _ _ _ _ _ _ Hret).
    destruct (members p) as [[a|] [b|]] eqn:Hmem; try discriminate.
    intros [= <- <-]. right. exists p, a, b. auto.
  - intros [= <- <-]. left. auto.
Qed.

(** X19. [generatePairing] hides the error box when it shows a pairing and never
    brings it back: a box whose [style.display] is "none" before a call has
    it after the call, also when the call fails and puts the error text into
    the box. *)
Theorem generatePairing_error_box_stays_hidden
    (rnd : nat -> Q) (characters : list Character) (fuel : nat)
    (doc doc' : document) (w w' : world) :
  page_ready doc ->
  generatePairing rnd characters fuel doc w = Returns doc' w' ->
  (get_prop "pairing" "style.display" doc' = Some "grid" ->
   get_prop "error" "style.display" doc' = Some "none") /\
  (get_prop "error" "style.display" doc = Some "none" ->
   get_prop "error" "style.display" doc' = Some "none" /\
   (get_prop "pairing" "style.display" doc' <> Some "grid" ->
    get_prop "error" "innerHTML" doc' = Some NO_PAIRING)).
Proof.
  intros Hready Hret. destruct (proj2 Hready) as [selector Hsel].
  destruct (generatePairing_Returns _ _ _ _ _ _ _ _ Hready Hsel Hret)
    as [[_ ->]|(p & a & b & _ & _ & ->)].
  - assert (Hd : get_prop "error" "style.display" (error_shown doc)
                 = get_prop "error" "style.display" doc) by read_page Hready.
    assert (Hp : get_prop "pairing" "style.display" (error_shown doc)
                 = Some "none") by read_page Hready.
    assert (Ht : get_prop "error" "innerHTML" (error_shown doc)
                 = Some NO_PAIRING) by read_page Hready.
    rewrite Hd, Hp, Ht. split; [discriminate|auto].
  - assert (Hd : get_prop "error" "style.display" (pairing_shown a b doc)
                 = Some "none") by read_page Hready.
    assert (Hp : get_prop "pairing" "style.display" (pairing_shown a b doc)
                 = Some "grid") by read_page Hready.
    rewrite Hd, Hp. split; [auto|]. intros _. split; [reflexivity|].
    intros Hne. destruct (Hne eq_refl).
Qed.

Lemma hidden_error_ready selector : page_ready (Demo.hidden_error selector).
Proof.
  split; [|vm_compute; eauto].
  apply (bool_decide_unpack _). vm_compute. exact I.
Qed.

Lemma generatePairing_error_box_stays_hidden_witness :
  (get_prop "pairing" "style.display"
     (error_shown (Demo.hidden_error "game-MM")) = Some "grid" ->
   get_prop "error" "style.display"
     (error_shown (Demo.hidden_error "game-MM")) = Some "none") /\
  (get_prop "error" "style.display" (Demo.hidden_error "game-MM") = Some "none" ->
   get_prop "error" "style.display"
     (error_shown (Demo.hidden_error "game-MM")) = Some "none" /\
   (get_prop "pairing" "style.display"
      (error_shown (Demo.hidden_error "game-MM")) <> Some "grid" ->
    get_prop "error" "innerHTML"
      (error_shown (Demo.hidden_error "game-MM")) = Some NO_PAIRING)).
Proof.
  apply (generatePairing_error_box_stays_hidden Example.zeros Example.twins 0
           (Demo.hidden_error "game-MM")
           (error_shown (Demo.hidden_error "game-MM"))
           Example.start
           (warned "Not enough males for homo pairing in subgroup: game"
              Example.start)).
  - apply hidden_error_ready.
  - rewrite (generatePairing_run _ _ _ _ "game-MM" _
               (hidden_error_ready "game-MM") eq_refl).
    reflexivity.
Defined.

(** ** [generatePairing]: the two pictures *)

Lemma append_length (s t : string) :
  String.length (s +:+ t) = (String.length s + String.length t)%nat.
Proof. induction s as [|c s IH]; simpl; [reflexivity|]. rewrite IH. reflexivity. Qed.

Lemma append_inj_l (s1 s2 t : string) : s1 +:+ t = s2 +:+ t -> s1 = s2.
Proof.
  revert s2. induction s1 as [|c s1 IH]; intros [|d s2] H.
  - reflexivity.
  - apply (f_equal String.length) in H.
    rewrite !append_length in H. simpl in H. lia.
  - apply (f_equal String.length) in H.
    rewrite !append_length in H. simpl in H. lia.
  - simpl in H. injection H as -> H. f_equal. apply IH, H.
Qed.

Lemma image_path_inj (x y : string) : image_path x = image_path y -> x = y.
Proof.
  unfold image_path. intros H. simpl in H. injection H as H.
  apply (append_inj_l x y ".png"), H.
Qed.

Lemma pairing_shown_grid a b (doc : document) :
  page_ready doc ->
  get_prop "pairing" "style.display" (pairing_shown a b doc) = Some "grid".
Proof. intros Hready. read_page Hready. Qed.

(** X20. Whenever [generatePairing] shows a pairing in a same-gender mode, or in
    any mode on a roster with one record per image, the two pictures it
    shows are different files. *)
Theorem generatePairing_two_pictures
    (rnd : nat -> Q) (characters : list Character) (fuel : nat)
    (doc doc' : document) (selector : string) (w w' : world) :
  page_ready doc ->
  get_prop "pairingSelector" "value" doc = Some selector ->
  finalMode selector <> "hetero" \/ NoDup (image <$> characters) ->
  generatePairing rnd characters fuel doc w = Returns doc' w' ->
  get_prop "pairing" "style.display" doc' = Some "grid" ->
  exists src1 src2,
    get_prop "char1Image" "src" doc' = Some src1 /\
    get_prop "char2Image" "src" doc' = Some src2 /\
    src1 <> src2.
Proof.
  intros Hready Hsel Hor Hret Hgrid.
  destruct (generatePairing_Returns _ _ _ _ _ _ _ _ Hready Hsel Hret)
    as [[_ ->]|(p & a & b & Hpair & Hmem & ->)].
  - assert (Hp : get_prop "pairing" "style.display" (error_shown doc)
                 = Some "none") by read_page Hready.
    rewrite Hp in Hgrid. discriminate.
  - exists (image_path (image a)), (image_path (image b)).
    split; [read_page Hready|]. split; [read_page Hready|].
    intros E. apply image_path_inj in E. revert E.
    eapply members_images_differ; eassumption.
Qed.

Lemma generatePairing_two_pictures_witness :
  exists src1 src2,
    get_prop "char1Image" "src"
      (pairing_shown Example.man1 Example.man2 (Demo.blank "pw1-MM"))
      = Some src1 /\
    get_prop "char2Image" "src"
      (pairing_shown Example.man1 Example.man2 (Demo.blank "pw1-MM"))
      = Some src2 /\
    src1 <> src2.
Proof.
  apply (generatePairing_two_pictures Example.zero_then_half Example.twins 1
           (Demo.blank "pw1-MM")
           (pairing_shown Example.man1 Example.man2 (Demo.blank "pw1-MM"))
           "pw1-MM" Example.start (tick (tick Example.start))).
  - apply blank_ready.
  - reflexivity.
  - left. discriminate.
  - rewrite (generatePairing_run _ _ _ _ "pw1-MM" _
               (blank_ready "pw1-MM") eq_refl).
    reflexivity.
  - apply pairing_shown_grid, blank_ready.
Defined.

(** ** [generatePairing]: warnings *)

(** The warning behind a [null], for each mode. *)
Lemma getPairing_null rnd characters fuel subgroup mode w w' :
  getPairing rnd characters fuel subgroup mode w = Returns None w' ->
  exists msg, w' = warned msg w /\
    ((mode = "hetero" /\ msg = "No characters found for subgroup: " +:+ subgroup) \/
     (mode = "homo-male" /\
      msg = "Not enough males for homo pairing in subgroup: " +:+ subgroup) \/
     (mode = "homo-female" /\
      msg = "Not enough females for same-sex pairing in subgroup: " +:+ subgroup) \/
     (mode <> "hetero" /\ mode <> "homo-male" /\ mode <> "homo-female" /\
      msg = "Invalid pairing mode: " +:+ mode)).
Proof.
  open_getPairing characters subgroup.
  assert (Hpair : forall (c : run (option Character))
                         (k : option Character -> run (option Character))
                         (mk : option Character -> option Character -> Pairing),
    (let* a := c in let* b := k a in ret (Some (mk a b))) w <> Returns None w').
  { intros c k mk Hp.
    apply bind_Returns in Hp as (a & w1 & _ & Hp).
    apply bind_Returns in Hp as (b & w2 & _ & Hp). discriminate. }
  destruct (decide (mode = MODES.NORMAL)) as [->|Hn].
  { destruct (_ || _); [|intros Hp; destruct (Hpair _ _ _ Hp)].
    intros [= <-]. eexists. split; [reflexivity|]. left. auto. }
  destruct (decide (mode = MODES.MM)) as [->|Hm].
  { destruct (decide _); [|intros Hp; destruct (Hpair _ _ _ Hp)].
    intros [= <-]. eexists. split; [reflexivity|]. right. left. auto. }
  destruct (decide (mode = MODES.FF)) as [->|Hf].
  { destruct (decide _); [|intros Hp; destruct (Hpair _ _ _ Hp)].
    intros [= <-]. eexists. split; [reflexivity|]. right. right. left. auto. }
  intros [= <-]. eexists. split; [reflexivity|]. do 3 right. auto.
Qed.

Lemma finalMode_valid selector :
  finalMode selector = "hetero" \/ finalMode selector = "homo-male" \/
  finalMode selector = "homo-female".
Proof.
  unfold finalMode. destruct (includes "MM" selector); [auto|].
  destruct (includes "FF" selector); auto.
Qed.

(** X21. A call of [generatePairing] writes at most one warning, and only when it
    fails: one of the three about too few characters, for the subgroup of the
    selector.  The warning of [getPairing] about an invalid mode cannot come
    from the page. *)
Theorem generatePairing_warnings
    (rnd : nat -> Q) (characters : list Character) (fuel : nat)
    (doc doc' : document) (selector : string) (w w' : world) :
  page_ready doc ->
  get_prop "pairingSelector" "value" doc = Some selector ->
  generatePairing rnd characters fuel doc w = Returns doc' w' ->
  (get_prop "pairing" "style.display" doc' = Some "grid" /\
   console w' = console w) \/
  (get_prop "pairing" "style.display" doc' = Some "none" /\
   exists msg,
     console w' = (console w ++ [msg])%list /\
     msg ∈ [ "No characters found for subgroup: "
               +:+ selector_subgroup selector;
             "Not enough males for homo pairing in subgroup: "
               +:+ selector_subgroup selector;
             "Not enough females for same-sex pairing in subgroup: "
               +:+ selector_subgroup selector ]).
Proof.
  intros Hready Hsel Hret.
  destruct (generatePairing_Returns _ _ _ _ _ _ _ _ Hready Hsel Hret)
    as [[Hnull ->]|(p & a & b & Hpair & _ & ->)].
  - right. split; [read_page Hready|].
    apply getPairing_null in Hnull as (msg & -> & Hmsg).
    exists msg. split; [reflexivity|].
    destruct Hmsg as [[_ ->]|[[_ ->]|[[_ ->]|(H1 & H2 & H3 & _)]]].
    + left.
    + right. left.
    + right. right. left.
    + destruct (finalMode_valid selector) as [E|[E|E]]; congruence.
  - left. split; [read_page Hready|].
    apply getPairing_Returns_Some in Hpair.
    assert (Hkeep : forall (arr : list Character)
                           (cond : option Character -> run bool) v w1 w2,
      (forall v b w3 w4, cond v w3 = Returns b w4 -> w4 = w3) ->
      do_while fuel (getRandomChar rnd arr) cond w1 = Returns v w2 ->
      console w2 = console w1).
    { intros arr cond v w1 w2 Hcond Hloop.
      apply (do_while_draws rnd arr cond fuel Hcond) in Hloop. tauto. }
    assert (Hdep : forall s x v b w3 w4,
      same_depiction s x v w3 = Returns b w4 -> w4 = w3).
    { intros s x v c w3 w4 Ht.
      apply same_depiction_Returns in Ht as (? & ? & _ & _ & -> & _).
      reflexivity. }
    destruct Hpair as [male female w1 _ _ Hfirst Hsecond
                      |male1 male2 w1 _ Hfirst Hloop
                      |female1 female2 w1 _ Hfirst Hloop];
      rewrite getRandomChar_eq in Hfirst; injection Hfirst as _ <-.
    + destruct (all_or_game (selector_subgroup selector)).
      * apply Hkeep in Hsecond; [exact Hsecond|].
        intros v c w3 w4 Ht.
        apply same_characterId_Returns in Ht as (? & ? & _ & _ & -> & _).
        reflexivity.
      * rewrite getRandomChar_eq in Hsecond. injection Hsecond as _ <-.
        reflexivity.
    + apply Hkeep in Hloop; [exact Hloop|]. intros v. apply Hdep.
    + apply Hkeep in Hloop; [exact Hloop|]. intros v. apply Hdep.
Qed.

Lemma generatePairing_warnings_witness :
  (get_prop "pairing" "style.display" (error_shown (Demo.blank "game-FF"))
     = Some "grid" /\
   console
     (warned "Not enough females for same-sex pairing in subgroup: game"
        Example.start) = console Example.start) \/
  (get_prop "pairing" "style.display" (error_shown (Demo.blank "game-FF"))
     = Some "none" /\
   exists msg,
     console
       (warned "Not enough females for same-sex pairing in subgroup: game"
          Example.start) = (console Example.start ++ [msg])%list /\
     msg ∈ [ "No characters found for subgroup: "
               +:+ selector_subgroup "game-FF";
             "Not enough males for homo pairing in subgroup: "
               +:+ selector_subgroup "game-FF";
             "Not enough females for same-sex pairing in subgroup: "
               +:+ selector_subgroup "game-FF" ]).
Proof.
  apply (generatePairing_warnings Example.zeros Example.twins 0
           (Demo.blank "game-FF") (error_shown (Demo.blank "game-FF"))
           "game-FF" Example.start).
  - apply blank_ready.
  - reflexivity.
  - rewrite (generatePairing_run _ _ _ _ "game-FF" _
               (blank_ready "game-FF") eq_refl).
    reflexivity.
Defined.

(** ** [generatePairing]: before the roster is loaded *)

(** X22. With the roster empty (the value of [characters] until the load has
    succeeded) [generatePairing] shows the error text and hides the pairing,
    for every selector; it reads no random value and neither throws nor
    loops. *)
Theorem generatePairing_empty_roster
    (rnd : nat -> Q) (fuel : nat) (doc : document) (w : world) :
  page_ready doc ->
  exists doc' msg,
    generatePairing rnd [] fuel doc w = Returns doc' (warned msg w) /\
    get_prop "error" "innerHTML" doc' = Some NO_PAIRING /\
    get_prop "pairing" "style.display" doc' = Some "none".
Proof.
  intros Hready. destruct (proj2 Hready) as [selector Hsel].
  assert (Hnull : exists msg,
    getPairing rnd [] fuel (selector_subgroup selector) (finalMode selector) w
      = Returns None (warned msg w)).
  { unfold getPairing, getPairing_by. fold (candidates [] (selector_subgroup selector)).
    rewrite candidates_nil.
    destruct (decide (_ = MODES.NORMAL)); [eexists; reflexivity|].
    destruct (decide (_ = MODES.MM)); [eexists; reflexivity|].
    destruct (decide (_ = MODES.FF)); eexists; reflexivity. }
  destruct Hnull as [msg Hnull].
  exists (error_shown doc), msg.
  rewrite (generatePairing_run _ _ _ _ _ _ Hready Hsel), Hnull.
  split; [reflexivity|]. split; read_page Hready.
Qed.

Lemma generatePairing_empty_roster_witness :
  exists doc' msg,
    generatePairing Example.zeros [] 0 (Demo.blank "all-normal") Example.start
      = Returns doc' (warned msg Example.start) /\
    get_prop "error" "innerHTML" doc' = Some NO_PAIRING /\
    get_prop "pairing" "style.display" doc' = Some "none".
Proof.
  apply (generatePairing_empty_roster Example.zeros 0 (Demo.blank "all-normal")
           Example.start).
  apply blank_ready.
Defined.

(** * The loops, for the draws of the script *)

(** ** The branches of [getPairing], whatever the draw *)

Section AnyDraw.

Variable characters : list Character.
Variable draw : list Character -> run (option Character).
Variable subgroup : string.

Abbreviation males := (males_of characters subgroup).
Abbreviation females := (females_of characters subgroup).

Lemma getPairing_by_hetero fuel w male w1 :
  females <> [] ->
  draw males w = Returns (Some male) w1 ->
  (forall w0, draw [] w0 <> Returns (Some male) w1) ->
  getPairing_by characters draw fuel subgroup "hetero" w =
  match (if all_or_game subgroup
         then do_while fuel (draw females) (same_characterId (Some male))
         else draw females) w1 with
  | Returns female w' => Returns (Some (MaleFemale (Some male) female)) w'
  | Throws => Throws
  | Running => Running
  end.
Proof.
  intros Hf Hdraw Hnil. unfold getPairing_by.
  fold (candidates characters subgroup). fold males females.
  rewrite decide_True by reflexivity.
  destruct males as [|x xs] eqn:Em; [destruct (Hnil _ Hdraw)|].
  destruct females as [|y ys] eqn:Ef; [congruence|].
  change (bool_decide (length (x :: xs) = 0%nat)
          || bool_decide (length (y :: ys) = 0%nat)) with false.
  cbv iota. rewrite (bind_eq _ _ _ _ _ Hdraw). reflexivity.
Qed.

Lemma getPairing_by_mm fuel w first w1 :
  (2 <= length males)%nat ->
  draw males w = Returns (Some first) w1 ->
  getPairing_by characters draw fuel subgroup "homo-male" w =
  match do_while fuel (draw males) (same_depiction subgroup (Some first)) w1 with
  | Returns male2 w' => Returns (Some (MaleMale (Some first) male2)) w'
  | Throws => Throws
  | Running => Running
  end.
Proof.
  intros Hlen Hdraw. unfold getPairing_by.
  fold (candidates characters subgroup). fold males.
  rewrite decide_False by discriminate.
  rewrite decide_True by reflexivity.
  rewrite decide_False by lia.
  rewrite (bind_eq _ _ _ _ _ Hdraw). reflexivity.
Qed.

Lemma getPairing_by_ff fuel w first w1 :
  (2 <= length females)%nat ->
  draw females w = Returns (Some first) w1 ->
  getPairing_by characters draw fuel subgroup "homo-female" w =
  match do_while fuel (draw females) (same_depiction subgroup (Some first)) w1 with
  | Returns female2 w' => Returns (Some (FemaleFemale (Some first) female2)) w'
  | Throws => Throws
  | Running => Running
  end.
Proof.
  intros Hlen Hdraw. unfold getPairing_by.
  fold (candidates characters subgroup). fold females.
  rewrite !decide_False by discriminate.
  rewrite decide_True by reflexivity.
  rewrite decide_False by lia.
  rewrite (bind_eq _ _ _ _ _ Hdraw). reflexivity.
Qed.

End AnyDraw.

(** ** A draw with the product as the script rounds it *)

Lemma Double_getRandomChar_eq rnd charArray w :
  Double.getRandomChar rnd charArray w =
  Returns (Double.at_index charArray
             (Double.index (rnd (drawn w)) (length charArray)))
          (tick w).
Proof. reflexivity. Qed.

Lemma at_index_Some arr i c : Double.at_index arr i = Some c -> c ∈ arr.
Proof. destruct i as [i|]; simpl; [apply item_Some|discriminate]. Qed.

Lemma at_index_nat (arr : list Character) (i : nat) :
  Double.at_index arr (Some (Z.of_nat i)) = arr !! i.
Proof.
  simpl. unfold item. rewrite decide_True by lia. rewrite Nat2Z.id. reflexivity.
Qed.

Lemma draws_inside_Some rnd (arr : list Character) k :
  draws_inside rnd (length arr) ->
  exists b, Double.at_index arr (Double.index (rnd k) (length arr)) = Some b /\
            b ∈ arr.
Proof.
  intros Hin. destruct (Hin k) as (i & Hlt & ->).
  rewrite at_index_nat.
  destruct (lookup_lt_is_Some_2 arr i Hlt) as [b Hb].
  exists b. split; [exact Hb|]. eapply list_elem_of_lookup_2, Hb.
Qed.

Lemma Double_getRandomChar_nil rnd w c w1 :
  Double.getRandomChar rnd [] w <> Returns (Some c) w1.
Proof.
  rewrite Double_getRandomChar_eq. intros H. injection H as H _.
  apply at_index_Some in H. inversion H.
Qed.

(** ** A loop over such draws *)

(** The loop [do { second = getRandomChar(arr) } while (cond)] for a test
    that reads properties of [second] and decides by [test]. *)
Section Loop.

Variable rnd : nat -> PrimFloat.float.
Variable arr : list Character.
Variable cond : option Character -> run bool.
Variable test : Character -> bool.

Hypothesis cond_test : forall b w, cond (Some b) w = Returns (test b) w.
Hypothesis cond_undefined : forall w, cond None w = Throws.

Abbreviation loop fuel := (do_while fuel (Double.getRandomChar rnd arr) cond).

(** What the loop returns is an element the test lets pass, whatever the
    oracle. *)
Lemma loop_Returns fuel w v w' :
  loop fuel w = Returns v w' ->
  exists b, v = Some b /\ b ∈ arr /\ test b = false.
Proof.
  intros H. apply do_while_Returns in H as (w1 & w2 & Hbody & Hcond).
  destruct v as [b|]; [|rewrite cond_undefined in Hcond; discriminate].
  exists b. split; [reflexivity|]. split.
  - rewrite Double_getRandomChar_eq in Hbody. injection Hbody as Hbody _.
    eapply at_index_Some, Hbody.
  - rewrite cond_test in Hcond. congruence.
Qed.

Hypothesis inside : draws_inside rnd (length arr).

Lemma loop_step fuel w :
  exists b, b ∈ arr /\
    Double.at_index arr (Double.index (rnd (drawn w)) (length arr)) = Some b /\
    loop (S fuel) w =
      if test b then loop fuel (tick w) else Returns (Some b) (tick w).
Proof.
  destruct (draws_inside_Some rnd arr (drawn w) inside) as (b & Hb & Hin).
  exists b. split; [exact Hin|]. split; [exact Hb|].
  simpl. unfold bind at 1. rewrite Double_getRandomChar_eq, Hb.
  unfold bind. rewrite cond_test. destruct (test b); reflexivity.
Qed.

Lemma loop_outcome fuel :
  forall w,
    loop fuel w = Running \/
    exists b w', loop fuel w = Returns (Some b) w' /\ b ∈ arr /\ test b = false.
Proof.
  induction fuel as [|fuel IH]; intros w; [left; reflexivity|].
  destruct (loop_step fuel w) as (b & Hin & _ & ->).
  destruct (test b) eqn:E; [apply IH|].
  right. exists b, (tick w). auto.
Qed.

Lemma loop_stuck fuel :
  (forall b, b ∈ arr -> test b = true) ->
  forall w, loop fuel w = Running.
Proof.
  intros Hall. induction fuel as [|fuel IH]; intros w; [reflexivity|].
  destruct (loop_step fuel w) as (b & Hin & _ & ->).
  rewrite (Hall b Hin). apply IH.
Qed.

Lemma loop_reaches d :
  forall w b,
    Double.at_index arr (Double.index (rnd (drawn w + d)) (length arr)) = Some b ->
    test b = false ->
    exists fuel, loop fuel w <> Running.
Proof.
  induction d as [|d IH]; intros w b Hsel Hok.
  - exists 1%nat. destruct (loop_step 0 w) as (b0 & _ & Hsel0 & ->).
    rewrite Nat.add_0_r in Hsel. rewrite Hsel in Hsel0. injection Hsel0 as <-.
    rewrite Hok. discriminate.
  - destruct (IH (tick w) b) as [fuel Hfuel]; [|exact Hok|].
    { simpl. rewrite <- Hsel. do 3 f_equal. lia. }
    exists (S fuel). destruct (loop_step fuel w) as (b0 & _ & _ & ->).
    destruct (test b0); [exact Hfuel|discriminate].
Qed.

(** When the oracle draws every element again and again, the loop ends
    exactly when the array holds an element the test lets pass. *)
Lemma loop_terminates w :
  fair rnd (length arr) ->
  (exists fuel, loop fuel w <> Running) <->
  (exists b, b ∈ arr /\ test b = false).
Proof.
  intros Hfair. split.
  - intros [fuel Hend].
    destruct (loop_outcome fuel w) as [Hrun|(b & w' & _ & Hin & Hok)];
      [contradiction|eauto].
  - intros (b & Hin & Hok).
    apply list_elem_of_lookup_1 in Hin as [i Hi].
    pose proof (lookup_lt_Some _ _ _ Hi) as Hlt.
    destruct (Hfair (drawn w) i Hlt) as (k & Hk & Hsel).
    apply (loop_reaches (k - drawn w) w b); [|exact Hok].
    replace (drawn w + (k - drawn w))%nat with k by lia.
    rewrite Hsel, at_index_nat. exact Hi.
Qed.

End Loop.

(** The shared argument of the termination theorems: a call [run_mode] that,
    after the draw of [first], is the loop over [arr]. *)
Lemma loop_call rnd (arr : list Character) cond test
    (run_mode : nat -> run (option Pairing))
    (mk : option Character -> option Character -> Pairing) first w :
  (forall b w0, cond (Some b) w0 = Returns (test b) w0) ->
  (forall w0, cond None w0 = Throws) ->
  (forall fuel,
     run_mode fuel w =
     match do_while fuel (Double.getRandomChar rnd arr) cond (tick w) with
     | Returns second w' => Returns (Some (mk (Some first) second)) w'
     | Throws => Throws
     | Running => Running
     end) ->
  (draws_inside rnd (length arr) -> fair rnd (length arr) ->
   (terminates run_mode w <-> exists b, b ∈ arr /\ test b = false)) /\
  ((forall b, b ∈ arr -> test b = true) ->
   (forall fuel r w', run_mode fuel w <> Returns r w') /\
   (draws_inside rnd (length arr) -> forall fuel, run_mode fuel w = Running)).
Proof.
  intros Htest Hundef Heq. split.
  - intros Hin Hfair.
    rewrite <- (loop_terminates rnd arr cond test Htest Hin (tick w) Hfair).
    unfold terminates. split; intros [fuel Hend]; exists fuel.
    + intros Hrun. apply Hend. rewrite Heq, Hrun. reflexivity.
    + rewrite Heq.
      destruct (loop_outcome rnd arr cond test Htest Hin fuel (tick w))
        as [Hrun|(b & w' & -> & _)]; [contradiction|discriminate].
  - intros Hall. split.
    + intros fuel r w' Hret. rewrite Heq in Hret.
      destruct (do_while fuel _ cond (tick w)) as [v w1| |] eqn:Hloop;
        try discriminate.
      apply (loop_Returns rnd arr cond test Htest Hundef) in Hloop
        as (b & _ & Hb & Hok).
      rewrite (Hall b Hb) in Hok. discriminate.
    + intros Hin fuel. rewrite Heq.
      rewrite (loop_stuck rnd arr cond test Htest Hin fuel Hall). reflexivity.
Qed.

Lemma same_characterId_Some m b w :
  same_characterId (Some m) (Some b) w
    = Returns (bool_decide (characterId b = characterId m)) w.
Proof. reflexivity. Qed.

Lemma in_turn_inside : draws_inside Demo.in_turn 2.
Proof.
  intros k. unfold Demo.in_turn. destruct (Nat.even k).
  - exists 0%nat. split; [lia|reflexivity].
  - exists 1%nat. split; [lia|reflexivity].
Qed.

Lemma in_turn_fair : fair Demo.in_turn 2.
Proof.
  intros start i Hi. destruct i as [|[|i]]; [| |lia].
  - exists (2 * start)%nat. split; [lia|].
    unfold Demo.in_turn. rewrite Nat.even_mul. reflexivity.
  - exists (2 * start + 1)%nat. split; [lia|].
    unfold Demo.in_turn. rewrite Nat.even_add, Nat.even_mul. reflexivity.
Qed.

(** ** Termination of the redraw loop *)

(** C7. Opposite-gender mode, subgroup "all" or "game", the draws computed as
    the script computes them (the product rounded to a double), and [m] the
    male drawn first.
    - For every sequence of values of [Math.random] that draws each female of
      the candidate set again and again, [getPairing] ends if and only if
      some female of the candidate set has a [characterId] other than that
      of [m].
    - If every female has the [characterId] of [m], [getPairing] never
      returns, whatever the sequence; and as the draws of [Math.random] stay
      inside the array, it is still inside the loop after any number of
      rounds. *)
Theorem getPairing_hetero_termination
    (rnd : nat -> PrimFloat.float) (characters : list Character)
    (subgroup : string) (w : world) (m : Character) :
  subgroup = "all" \/ subgroup = "game" ->
  females_of characters subgroup <> [] ->
  Double.getRandomChar rnd (males_of characters subgroup) w
    = Returns (Some m) (tick w) ->
  (draws_inside rnd (length (females_of characters subgroup)) ->
   fair rnd (length (females_of characters subgroup)) ->
   (terminates
      (fun fuel => Double.getPairing rnd characters fuel subgroup "hetero") w
    <->
    exists f, f ∈ females_of characters subgroup /\
              characterId f <> characterId m)) /\
  ((forall f, f ∈ females_of characters subgroup ->
              characterId f = characterId m) ->
   (forall fuel r w',
      Double.getPairing rnd characters fuel subgroup "hetero" w
        <> Returns r w') /\
   (draws_inside rnd (length (females_of characters subgroup)) ->
    forall fuel,
      Double.getPairing rnd characters fuel subgroup "hetero" w = Running)).
Proof.
  intros Hsub Hf Hdraw.
  assert (Hag : all_or_game subgroup = true).
  { unfold all_or_game. destruct Hsub as [-> | ->]; reflexivity. }
  destruct (loop_call rnd (females_of characters subgroup)
              (same_characterId (Some m))
              (fun b => bool_decide (characterId b = characterId m))
              (fun fuel => Double.getPairing rnd characters fuel subgroup "hetero")
              MaleFemale m w) as [Hiff Hstuck].
  - intros b w0. apply same_characterId_Some.
  - reflexivity.
  - intros fuel. unfold Double.getPairing.
    rewrite (getPairing_by_hetero characters _ subgroup fuel w m (tick w)
               Hf Hdraw (fun w0 => Double_getRandomChar_nil rnd w0 m (tick w))).
    rewrite Hag. reflexivity.
  - split.
    + intros Hin Hfair. rewrite (Hiff Hin Hfair).
      split; intros (f & Hinf & H); exists f; (split; [exact Hinf|]).
      * apply bool_decide_eq_false in H. exact H.
      * apply bool_decide_eq_false. exact H.
    + intros Hsame. apply Hstuck. intros b Hb.
      apply bool_decide_eq_true. apply Hsame, Hb.
Qed.

Lemma getPairing_hetero_termination_witness :
  (terminates
     (fun fuel => Double.getPairing Demo.in_turn Example.cast fuel "game" "hetero")
     Example.start
   <->
   exists f, f ∈ females_of Example.cast "game" /\
             characterId f <> characterId (Example.Phoenix 1)) /\
  ((forall fuel r w',
      Double.getPairing Demo.in_turn Example.twins fuel "all" "hetero"
        Example.start <> Returns r w') /\
   (forall fuel,
      Double.getPairing Demo.in_turn Example.twins fuel "all" "hetero"
        Example.start = Running)).
Proof.
  split.
  - apply (getPairing_hetero_termination Demo.in_turn Example.cast "game"
             Example.start (Example.Phoenix 1)).
    + right. reflexivity.
    + vm_compute. discriminate.
    + reflexivity.
    + exact in_turn_inside.
    + exact in_turn_fair.
  - destruct (getPairing_hetero_termination Demo.in_turn Example.twins "all"
                Example.start Example.man1) as [_ Hstuck].
    + left. reflexivity.
    + vm_compute. discriminate.
    + reflexivity.
    + destruct Hstuck as [Hnever Hrun].
      * intros f Hf. vm_compute in Hf.
        apply elem_of_cons in Hf as [->|Hf]; [reflexivity|].
        apply list_elem_of_singleton in Hf as ->. reflexivity.
      * split; [exact Hnever|]. apply Hrun. exact in_turn_inside.
Defined.

(** ** Termination of the same-gender loops *)

Lemma turned_down_true subgroup first second :
  image second = image first \/
  ((subgroup = "all" \/ subgroup = "game") /\
   characterId second = characterId first) ->
  turned_down subgroup first second = true.
Proof.
  intros H. destruct (turned_down subgroup first second) eqn:E; [reflexivity|].
  apply turned_down_false in E as [Himg Hid].
  destruct H as [Hi|[Hs Hc]]; [contradiction|]. destruct (Hid Hs Hc).
Qed.

(** X7. Male-male mode, at least two males in the candidate set, the draws
    computed as the script computes them, and [first] the male drawn first.
    - For every sequence of values of [Math.random] that draws each male of
      the candidate set again and again, [getPairing] ends if and only if
      some male of the candidate set has another [image] than [first] and,
      under "all" and "game", another [characterId] as well.
    - When every male is turned down (two depictions of one character under
      "all", say), [getPairing] never returns, whatever the sequence,
      although the guard on the number of males has let it pass; with draws
      inside the array it is still in its loop after any number of rounds. *)
Theorem getPairing_mm_termination
    (rnd : nat -> PrimFloat.float) (characters : list Character)
    (subgroup : string) (w : world) (first : Character) :
  (2 <= length (males_of characters subgroup))%nat ->
  Double.getRandomChar rnd (males_of characters subgroup) w
    = Returns (Some first) (tick w) ->
  (draws_inside rnd (length (males_of characters subgroup)) ->
   fair rnd (length (males_of characters subgroup)) ->
   (terminates
      (fun fuel => Double.getPairing rnd characters fuel subgroup "homo-male") w
    <->
    exists b, b ∈ males_of characters subgroup /\ image b <> image first /\
              (subgroup = "all" \/ subgroup = "game" ->
               characterId b <> characterId first))) /\
  ((forall b, b ∈ males_of characters subgroup ->
      image b = image first \/
      ((subgroup = "all" \/ subgroup = "game") /\
       characterId b = characterId first)) ->
   (forall fuel r w',
      Double.getPairing rnd characters fuel subgroup "homo-male" w
        <> Returns r w') /\
   (draws_inside rnd (length (males_of characters subgroup)) ->
    forall fuel,
      Double.getPairing rnd characters fuel subgroup "homo-male" w = Running)).
Proof.
  intros Hlen Hdraw.
  destruct (loop_call rnd (males_of characters subgroup)
              (same_depiction subgroup (Some first))
              (turned_down subgroup first)
              (fun fuel =>
                 Double.getPairing rnd characters fuel subgroup "homo-male")
              MaleMale first w) as [Hiff Hstuck].
  - intros b w0. apply same_depiction_Some.
  - reflexivity.
  - intros fuel. apply getPairing_by_mm; assumption.
  - split.
    + intros Hin Hfair. rewrite (Hiff Hin Hfair).
      apply ex_iff_turned_down_false.
    + intros Hall. apply Hstuck. intros b Hb.
      apply turned_down_true, Hall, Hb.
Qed.

Lemma getPairing_mm_termination_witness :
  (terminates
     (fun fuel => Double.getPairing Demo.in_turn Example.twins fuel "pw1" "homo-male")
     Example.start
   <->
   exists b, b ∈ males_of Example.twins "pw1" /\
             image b <> image Example.man1 /\
             ("pw1" = "all" \/ "pw1" = "game" ->
              characterId b <> characterId Example.man1)) /\
  ((forall fuel r w',
      Double.getPairing Demo.in_turn Example.twins fuel "all" "homo-male"
        Example.start <> Returns r w') /\
   (forall fuel,
      Double.getPairing Demo.in_turn Example.twins fuel "all" "homo-male"
        Example.start = Running)).
Proof.
  split.
  - apply (getPairing_mm_termination Demo.in_turn Example.twins "pw1"
             Example.start Example.man1).
    + vm_compute. lia.
    + reflexivity.
    + exact in_turn_inside.
    + exact in_turn_fair.
  - destruct (getPairing_mm_termination Demo.in_turn Example.twins "all"
                Example.start Example.man1) as [_ Hstuck].
    + vm_compute. lia.
    + reflexivity.
    + destruct Hstuck as [Hnever Hrun].
      * intros b Hb. right. split; [left; reflexivity|].
        vm_compute in Hb.
        apply elem_of_cons in Hb as [->|Hb]; [reflexivity|].
        apply list_elem_of_singleton in Hb as ->. reflexivity.
      * split; [exact Hnever|]. apply Hrun. exact in_turn_inside.
Defined.

(** X8. Female-female mode, at least two females in the candidate set, the
    draws computed as the script computes them, and [first] the female drawn
    first.
    - For every sequence of values of [Math.random] that draws each female
      of the candidate set again and again, [getPairing] ends if and only if
      some female of the candidate set has another [image] than [first] and,
      under "all" and "game", another [characterId] as well.
    - When every female is turned down, [getPairing] never returns, whatever
      the sequence; with draws inside the array it is still in its loop
      after any number of rounds. *)
Theorem getPairing_ff_termination
    (rnd : nat -> PrimFloat.float) (characters : list Character)
    (subgroup : string) (w : world) (first : Character) :
  (2 <= length (females_of characters subgroup))%nat ->
  Double.getRandomChar rnd (females_of characters subgroup) w
    = Returns (Some first) (tick w) ->
  (draws_inside rnd (length (females_of characters subgroup)) ->
   fair rnd (length (females_of characters subgroup)) ->
   (terminates
      (fun fuel => Double.getPairing rnd characters fuel subgroup "homo-female")
      w
    <->
    exists b, b ∈ females_of characters subgroup /\ image b <> image first /\
              (subgroup = "all" \/ subgroup = "game" ->
               characterId b <> characterId first))) /\
  ((forall b, b ∈ females_of characters subgroup ->
      image b = image first \/
      ((subgroup = "all" \/ subgroup = "game") /\
       characterId b = characterId first)) ->
   (forall fuel r w',
      Double.getPairing rnd characters fuel subgroup "homo-female" w
        <> Returns r w') /\
   (draws_inside rnd (length (females_of characters subgroup)) ->
    forall fuel,
      Double.getPairing rnd characters fuel subgroup "homo-female" w = Running)).
Proof.
  intros Hlen Hdraw.
  destruct (loop_call rnd (females_of characters subgroup)
              (same_depiction subgroup (Some first))
              (turned_down subgroup first)
              (fun fuel =>
                 Double.getPairing rnd characters fuel subgroup "homo-female")
              FemaleFemale first w) as [Hiff Hstuck].
  - intros b w0. apply same_depiction_Some.
  - reflexivity.
  - intros fuel. apply getPairing_by_ff; assumption.
  - split.
    + intros Hin Hfair. rewrite (Hiff Hin Hfair).
      apply ex_iff_turned_down_false.
    + intros Hall. apply Hstuck. intros b Hb.
      apply turned_down_true, Hall, Hb.
Qed.

Lemma getPairing_ff_termination_witness :
  (terminates
     (fun fuel =>
        Double.getPairing Demo.in_turn Example.twins fuel "pw1" "homo-female")
     Example.start
   <->
   exists b, b ∈ females_of Example.twins "pw1" /\
             image b <> image Example.woman1 /\
             ("pw1" = "all" \/ "pw1" = "game" ->
              characterId b <> characterId Example.woman1)) /\
  ((forall fuel r w',
      Double.getPairing Demo.in_turn Example.twins fuel "all" "homo-female"
        Example.start <> Returns r w') /\
   (forall fuel,
      Double.getPairing Demo.in_turn Example.twins fuel "all" "homo-female"
        Example.start = Running)).
Proof.
  split.
  - apply (getPairing_ff_termination Demo.in_turn Example.twins "pw1"
             Example.start Example.woman1).
    + vm_compute. lia.
    + reflexivity.
    + exact in_turn_inside.
    + exact in_turn_fair.
  - destruct (getPairing_ff_termination Demo.in_turn Example.twins "all"
                Example.start Example.woman1) as [_ Hstuck].
    + vm_compute. lia.
    + reflexivity.
    + destruct Hstuck as [Hnever Hrun].
      * intros b Hb. right. split; [left; reflexivity|].
        vm_compute in Hb.
        apply elem_of_cons in Hb as [->|Hb]; [reflexivity|].
        apply list_elem_of_singleton in Hb as ->. reflexivity.
      * split; [exact Hnever|]. apply Hrun. exact in_turn_inside.
Defined.

(** X11. Outside "all" and "game", on a roster with one record per image,
    the same-gender modes do end, the draws computed as the script computes
    them: with two males (two females) in the candidate set and values of
    [Math.random] whose draws stay inside the array and take each of its
    elements again and again, some number of rounds suffices and a pairing
    of two characters is returned. *)
Theorem getPairing_same_gender_ends
    (rnd : nat -> PrimFloat.float) (characters : list Character)
    (subgroup : string) (w : world) :
  NoDup (image <$> characters) ->
  subgroup <> "all" -> subgroup <> "game" ->
  ((2 <= length (males_of characters subgroup))%nat ->
   draws_inside rnd (length (males_of characters subgroup)) ->
   fair rnd (length (males_of characters subgroup)) ->
   exists fuel a b w',
     Double.getPairing rnd characters fuel subgroup "homo-male" w
       = Returns (Some (MaleMale (Some a) (Some b))) w') /\
  ((2 <= length (females_of characters subgroup))%nat ->
   draws_inside rnd (length (females_of characters subgroup)) ->
   fair rnd (length (females_of characters subgroup)) ->
   exists fuel a b w',
     Double.getPairing rnd characters fuel subgroup "homo-female" w
       = Returns (Some (FemaleFemale (Some a) (Some b))) w').
Proof.
  intros Hnd Hall Hgame.
  assert (Hag : all_or_game subgroup = false).
  { unfold all_or_game. rewrite !bool_decide_eq_false_2 by assumption.
    reflexivity. }
  assert (Hloop : forall arr first w1,
    NoDup (image <$> arr) -> (2 <= length arr)%nat ->
    draws_inside rnd (length arr) -> fair rnd (length arr) ->
    exists fuel b w',
      do_while fuel (Double.getRandomChar rnd arr)
        (same_depiction subgroup (Some first)) w1 = Returns (Some b) w').
  { intros arr first w1 Hnda Hlen Hin Hfair.
    destruct (other_image arr (image first) Hnda Hlen) as (b & Hb & Himg).
    pose proof (same_depiction_Some subgroup first) as Htest.
    destruct (proj2 (loop_terminates rnd arr _ _ Htest Hin w1 Hfair))
      as [fuel Hend].
    { exists b. split; [exact Hb|]. unfold turned_down.
      rewrite Hag, bool_decide_eq_false_2 by exact Himg. reflexivity. }
    exists fuel.
    destruct (loop_outcome rnd arr _ _ Htest Hin fuel w1)
      as [Hrun|(b' & w' & Hret & _)]; [contradiction|eauto]. }
  split; intros Hlen Hin Hfair.
  - destruct (draws_inside_Some rnd _ (drawn w) Hin) as (a & Ha & _).
    assert (Hdraw : Double.getRandomChar rnd (males_of characters subgroup) w
                    = Returns (Some a) (tick w)).
    { rewrite Double_getRandomChar_eq, Ha. reflexivity. }
    destruct (Hloop (males_of characters subgroup) a (tick w))
      as (fuel & b & w' & Hret); [|exact Hlen|exact Hin|exact Hfair|].
    { apply NoDup_image_filter, NoDup_image_candidates, Hnd. }
    exists fuel, a, b, w'. unfold Double.getPairing.
    rewrite (getPairing_by_mm characters _ subgroup fuel w a (tick w) Hlen Hdraw).
    rewrite Hret. reflexivity.
  - destruct (draws_inside_Some rnd _ (drawn w) Hin) as (a & Ha & _).
    assert (Hdraw : Double.getRandomChar rnd (females_of characters subgroup) w
                    = Returns (Some a) (tick w)).
    { rewrite Double_getRandomChar_eq, Ha. reflexivity. }
    destruct (Hloop (females_of characters subgroup) a (tick w))
      as (fuel & b & w' & Hret); [|exact Hlen|exact Hin|exact Hfair|].
    { apply NoDup_image_filter, NoDup_image_candidates, Hnd. }
    exists fuel, a, b, w'. unfold Double.getPairing.
    rewrite (getPairing_by_ff characters _ subgroup fuel w a (tick w) Hlen Hdraw).
    rewrite Hret. reflexivity.
Qed.

Lemma getPairing_same_gender_ends_witness :
  (exists fuel a b w',
     Double.getPairing Demo.in_turn Example.twins fuel "pw1" "homo-male"
       Example.start = Returns (Some (MaleMale (Some a) (Some b))) w') /\
  (exists fuel a b w',
     Double.getPairing Demo.in_turn Example.twins fuel "pw1" "homo-female"
       Example.start = Returns (Some (FemaleFemale (Some a) (Some b))) w').
Proof.
  destruct (getPairing_same_gender_ends Demo.in_turn Example.twins "pw1"
              Example.start) as [Hmm Hff].
  - apply (bool_decide_unpack _). vm_compute. exact I.
  - discriminate.
  - discriminate.
  - split.
    + apply Hmm; [vm_compute; lia|exact in_turn_inside|exact in_turn_fair].
    + apply Hff; [vm_compute; lia|exact in_turn_inside|exact in_turn_fair].
Defined.

(** ** Sample draws *)

(** The double 0.6666666666666666 draws the third of three elements, for its
    product with 3 is rounded to 2; the exact product is below 2. *)
Example draw_two_thirds :
  Double.index Demo.two_thirds 3 = Some 2 /\
  floor_scaled (6004799503160661 # 9007199254740992) 3 = 1.
Proof. split; reflexivity. Qed.

(** The doubles 0, 0.6666666666666666 and 0.7 never draw the second of three
    elements.  With the roster [Demo.trio] under "all" the male-male call
    then sees the first male and his other depiction only, and goes on
    drawing. *)
Example run_thirds :
  (forall k, Double.index (Demo.thirds k) 3 <> Some 1) /\
  Double.getPairing Demo.thirds Demo.trio 60 "all" "homo-male" Example.start
    = Running.
Proof.
  split; [|vm_compute; reflexivity].
  intros k. unfold Demo.thirds.
  destruct (k mod 3)%nat as [|[|n]]; discriminate.
Qed.

(** ** The two draws *)

Lemma as_fraction_unit r n :
  (0 <= as_fraction r n)%Q /\ (as_fraction r n < 1)%Q.
Proof.
  assert (Hzero : (0 <= 0)%Q /\ (0 < 1)%Q) by (split; [discriminate|reflexivity]).
  unfold as_fraction. destruct (Double.index r n) as [i|]; [|exact Hzero].
  destruct (decide (0 <= i < Z.of_nat n)) as [[H0 H1]|_]; [|exact Hzero].
  assert (Hlt : (Z.to_nat i < n)%nat) by lia.
  destruct (floor_scaled_onto (Z.to_nat i) n Hlt) as (Ha & Hb & _).
  rewrite Z2Nat.id in Ha, Hb by exact H0. auto.
Qed.

Lemma as_fraction_index r n i :
  (i < n)%nat -> Double.index r n = Some (Z.of_nat i) ->
  floor_scaled (as_fraction r n) n = Z.of_nat i.
Proof.
  intros Hlt Hi. unfold as_fraction. rewrite Hi.
  rewrite decide_True by lia.
  apply (floor_scaled_onto i n Hlt).
Qed.

(** A draw of the script inside the array is the draw by the exact product
    from the fraction of its value. *)
Lemma getRandomChar_as_fraction d q (arr : list Character) w :
  draws_inside d (length arr) ->
  q (drawn w) = as_fraction (d (drawn w)) (length arr) ->
  getRandomChar q arr w = Double.getRandomChar d arr w.
Proof.
  intros Hin Hq. rewrite getRandomChar_eq, Double_getRandomChar_eq, Hq.
  destruct (Hin (drawn w)) as (i & Hlt & Hi).
  rewrite (as_fraction_index _ _ i Hlt Hi), Hi. reflexivity.
Qed.

(** Two loops whose bodies agree from some position of the oracle on are the
    same loop there, when the test leaves the state as it is. *)
Lemma do_while_agree q d (arr : list Character)
    (cond : option Character -> run bool) first fuel :
  (forall v b w w', cond v w = Returns b w' -> w' = w) ->
  (forall w, (first < drawn w)%nat ->
             getRandomChar q arr w = Double.getRandomChar d arr w) ->
  forall w, (first < drawn w)%nat ->
    do_while fuel (getRandomChar q arr) cond w =
    do_while fuel (Double.getRandomChar d arr) cond w.
Proof.
  intros Hcond Hbody. induction fuel as [|fuel IH]; intros w Hw; [reflexivity|].
  simpl. unfold bind at 1 3. rewrite (Hbody w Hw), Double_getRandomChar_eq.
  unfold bind. destruct (cond _ (tick w)) as [again w1| |] eqn:Hc; try reflexivity.
  apply Hcond in Hc as ->. destruct again; [|reflexivity].
  apply IH. simpl. lia.
Qed.

Lemma same_characterId_keeps male v b w w' :
  same_characterId male v w = Returns b w' -> w' = w.
Proof.
  intros H. apply same_characterId_Returns in H as (? & ? & _ & _ & -> & _).
  reflexivity.
Qed.

Lemma same_depiction_keeps subgroup first v b w w' :
  same_depiction subgroup first v w = Returns b w' -> w' = w.
Proof.
  intros H. apply same_depiction_Returns in H as (? & ? & _ & _ & -> & _).
  reflexivity.
Qed.

Lemma bind_ext {A B} (c1 c2 : run A) (k1 k2 : A -> run B) w :
  c1 w = c2 w ->
  (forall a w', c2 w = Returns a w' -> k1 a w' = k2 a w') ->
  bind c1 k1 w = bind c2 k2 w.
Proof.
  intros Hc Hk. unfold bind. rewrite Hc.
  destruct (c2 w) as [a w'| |] eqn:E; [|reflexivity..]. apply Hk. reflexivity.
Qed.

(** The draw of the first member and the draws after it, by the exact product
    from the fractions and by the product of doubles. *)
Section Fractions.

Variable d : nat -> PrimFloat.float.
Variable w : world.
Variables first_arr rest_arr : list Character.

Abbreviation q :=
  (fractions d (drawn w) (length first_arr) (length rest_arr)).

Lemma fractions_first :
  draws_inside d (length first_arr) ->
  getRandomChar q first_arr w = Double.getRandomChar d first_arr w.
Proof.
  intros Hin. apply getRandomChar_as_fraction; [exact Hin|].
  unfold fractions. rewrite decide_True by reflexivity. reflexivity.
Qed.

Lemma fractions_rest w' :
  draws_inside d (length rest_arr) ->
  (drawn w < drawn w')%nat ->
  getRandomChar q rest_arr w' = Double.getRandomChar d rest_arr w'.
Proof.
  intros Hin Hlt. apply getRandomChar_as_fraction; [exact Hin|].
  unfold fractions. rewrite decide_False by lia. reflexivity.
Qed.

Lemma fractions_loop cond fuel :
  (forall v b w0 w', cond v w0 = Returns b w' -> w' = w0) ->
  draws_inside d (length rest_arr) ->
  do_while fuel (getRandomChar q rest_arr) cond (tick w) =
  do_while fuel (Double.getRandomChar d rest_arr) cond (tick w).
Proof.
  intros Hcond Hin.
  apply (do_while_agree q d rest_arr cond (drawn w) fuel Hcond).
  - intros w' Hlt. apply fractions_rest; assumption.
  - simpl. lia.
Qed.

End Fractions.

(** X23. Every run of [getPairing] with the draws of the script is a run with
    the exact product.  For values of [Math.random] whose draws stay inside
    the arrays they are taken from, there is an oracle with values in [0, 1)
    for which [getPairing] with the exact product is, for every bound,
    [getPairing] with the product of doubles: the same result, the same
    number of draws, the same warnings.  What is proved of [getPairing] for
    every oracle with values in [0, 1) thus holds with the draws of the
    script. *)
Theorem script_run_is_exact_run
    (d : nat -> PrimFloat.float) (characters : list Character)
    (subgroup mode : string) (w : world) :
  (males_of characters subgroup <> [] ->
   draws_inside d (length (males_of characters subgroup))) ->
  (females_of characters subgroup <> [] ->
   draws_inside d (length (females_of characters subgroup))) ->
  exists q : nat -> Q,
    unit_interval q /\
    forall fuel,
      Double.getPairing d characters fuel subgroup mode w =
      getPairing q characters fuel subgroup mode w.
Proof.
  intros Hm Hf.
  set (ms := males_of characters subgroup) in *.
  set (fs := females_of characters subgroup) in *.
  assert (Hunit : forall n1 n2, unit_interval (fractions d (drawn w) n1 n2)).
  { intros n1 n2 k. apply as_fraction_unit. }
  assert (Htick : forall (arr : list Character) q v w1,
    getRandomChar q arr w = Returns v w1 -> w1 = tick w).
  { intros arr q v w1 H. rewrite getRandomChar_eq in H. congruence. }
  destruct (decide (mode = "hetero")) as [->|Hn].
  { exists (fractions d (drawn w) (length ms) (length fs)).
    split; [apply Hunit|]. intros fuel.
    unfold Double.getPairing, getPairing, getPairing_by.
    fold (candidates characters subgroup). fold (males_of characters subgroup).
    fold (females_of characters subgroup). fold ms fs.
    rewrite decide_True by reflexivity.
    destruct ms as [|x xs] eqn:Ems; [reflexivity|].
    destruct fs as [|y ys] eqn:Efs; [reflexivity|].
    change (bool_decide (length (x :: xs) = 0%nat)
            || bool_decide (length (y :: ys) = 0%nat)) with false.
    cbv iota.
    apply bind_ext.
    { symmetry. apply fractions_first. apply Hm. discriminate. }
    intros male w1 Hw1. apply Htick in Hw1 as ->.
    apply bind_ext; [|reflexivity].
    destruct (all_or_game subgroup).
    - symmetry. apply fractions_loop; [|apply Hf; discriminate].
      intros v. apply same_characterId_keeps.
    - symmetry. apply fractions_rest; [apply Hf; discriminate|simpl; lia]. }
  destruct (decide (mode = "homo-male")) as [->|Hmm].
  { exists (fractions d (drawn w) (length ms) (length ms)).
    split; [apply Hunit|]. intros fuel.
    unfold Double.getPairing, getPairing, getPairing_by.
    fold (candidates characters subgroup). fold (males_of characters subgroup).
    fold ms.
    rewrite decide_False by discriminate.
    rewrite decide_True by reflexivity.
    destruct (decide (length ms < 2)%nat) as [Hlt|Hge]; [reflexivity|].
    assert (Hin : draws_inside d (length ms)).
    { apply Hm. destruct ms; simpl in Hge; [lia|discriminate]. }
    apply bind_ext.
    { symmetry. apply fractions_first, Hin. }
    intros male1 w1 Hw1. apply Htick in Hw1 as ->.
    apply bind_ext; [|reflexivity].
    symmetry. apply fractions_loop; [|exact Hin].
    intros v. apply same_depiction_keeps. }
  destruct (decide (mode = "homo-female")) as [->|Hff].
  { exists (fractions d (drawn w) (length fs) (length fs)).
    split; [apply Hunit|]. intros fuel.
    unfold Double.getPairing, getPairing, getPairing_by.
    fold (candidates characters subgroup). fold (females_of characters subgroup).
    fold fs.
    rewrite !decide_False by discriminate.
    rewrite decide_True by reflexivity.
    destruct (decide (length fs < 2)%nat) as [Hlt|Hge]; [reflexivity|].
    assert (Hin : draws_inside d (length fs)).
    { apply Hf. destruct fs; simpl in Hge; [lia|discriminate]. }
    apply bind_ext.
    { symmetry. apply fractions_first, Hin. }
    intros female1 w1 Hw1. apply Htick in Hw1 as ->.
    apply bind_ext; [|reflexivity].
    symmetry. apply fractions_loop; [|exact Hin].
    intros v. apply same_depiction_keeps. }
  exists (fractions d (drawn w) 0 0). split; [apply Hunit|]. intros fuel.
  unfold Double.getPairing, getPairing, getPairing_by.
  rewrite !decide_False by assumption. reflexivity.
Qed.

Lemma script_run_is_exact_run_witness :
  exists q : nat -> Q,
    unit_interval q /\
    forall fuel,
      Double.getPairing Demo.thirds Demo.trio fuel "all" "homo-male"
        Example.start =
      getPairing q Demo.trio fuel "all" "homo-male" Example.start.
Proof.
  assert (Hin : draws_inside Demo.thirds 3).
  { intros k. unfold Demo.thirds. destruct (k mod 3)%nat as [|[|n]].
    - exists 0%nat. split; [lia|reflexivity].
    - exists 2%nat. split; [lia|reflexivity].
    - exists 2%nat. split; [lia|reflexivity]. }
  apply (script_run_is_exact_run Demo.thirds Demo.trio "all" "homo-male"
           Example.start).
  - intros _. exact Hin.
  - intros Hne. destruct Hne. reflexivity.
Defined.
